(** * A Hopscotch hash map: model of [hash_map_review.h] and its properties

    The development embeds the three classes of the header, [Bucket],
    [BucketArray] and [HashMap], as Rocq records and functions, and proves
    the properties of the displacement insert, of the bounded lookup and of
    the container built on them.

    Modelling conventions.
    - [size_t] values (indices, sizes, counters, hash values) are natural
      numbers.  Every index handled by the code is below
      [array_.size() + NEXT], a quantity bounded by the address space, so
      none of the additions wraps.  The subtractions of the source are
      commented where they occur.
    - A [std::vector] is a [list]; [v[i]] is the total lookup [v !!! i],
      which yields [Bucket()] outside the vector, where the source has no
      defined behaviour.  The bounds theorems below show which accesses stay
      inside.
    - A vector iterator is the index of the element it points to; [end()] is
      the length of the vector.
    - A [PairType&] is a [PairRef]: the place of the pair in the container.
    - The [long double] load factor is the exact rational
      [pairs_count_ / array_.size()], compared with [1/10] and [1/2].  The
      physical length of every table the map builds is odd
      ([32 * 2^k + 31]), so the exact quotient never equals a threshold and
      rounding cannot change the outcome of a comparison.
    - The hash function, equality on keys and the default constructors of
      the key and value types are the fields of [HashMapParams]. *)

From Stdlib Require Import QArith.
From stdpp Require Import base numbers list strings.

Definition NEXT : nat := 32.
Definition INITIAL_SIZE : nat := 32.
Definition MIN_LOAD_FACTOR : Q := 1 # 10.
Definition MAX_LOAD_FACTOR : Q := 1 # 2.

(** [x < y] on rationals, as a boolean. *)
Definition Qltb (x y : Q) : bool := negb (Qle_bool y x).

(** What [std::out_of_range] carries. *)
Inductive exception : Type :=
  | out_of_range (what : string).

(** The place a [PairType&] designates.  [RefFake] is the local [fake_pair]
    of [BucketArray::Insert], which a failed insert returns. *)
Inductive PairRef : Type :=
  | RefFake
  | RefArray (i : nat)
  | RefList (i : nat).

(** What the displacement loop of [BucketArray::Insert] does to the array,
    in order: [ReadKey pot occ] when it reads the key of [array_[pot]] (with
    the occupancy flag of that bucket at that moment), and
    [Swap pot empty moved] when it swaps [array_[pot]], whose content was
    [moved], with the free bucket [array_[empty]]. *)
Inductive InsertEvent {Bucket : Type} : Type :=
  | ReadKey (pot_bucket : nat) (occupied : bool)
  | Swap (pot_bucket empty_bucket : nat) (moved : Bucket).
Arguments InsertEvent : clear implicits.

(** [RawIterator]: two positions and the two ends. *)
Record RawIterator : Type := mkRawIterator {
  b_array_iter_ : nat;
  b_array_end_ : nat;
  list_iter_ : nat;
  list_end_ : nat
}.

(** [operator==] of [RawIterator] compares the two positions only. *)
Definition RawIterator_eq (first second : RawIterator) : bool :=
  bool_decide (b_array_iter_ first = b_array_iter_ second)
  && bool_decide (list_iter_ first = list_iter_ second).

(** The template parameters of [HashMap<KeyType, ValueType, Hash>]: equality
    on keys, the default constructors [KeyType()] and [ValueType()] the
    header uses, and the hash object. *)
Class HashMapParams (KeyType ValueType : Type) : Type := {
  KeyType_eq_dec :: EqDecision KeyType;
  KeyType_default : KeyType;
  ValueType_default : ValueType;
  hash_func_ : KeyType → nat
}.

Section HashMapModel.

Context {KeyType ValueType : Type} {params : HashMapParams KeyType ValueType}.

Abbreviation PairType := (KeyType * ValueType)%type.

(** ** class Bucket *)

Record Bucket : Type := mkBucket {
  pair_ : PairType;
  is_occupied_ : bool
}.

(** [Bucket() = default] *)
Definition Bucket_default : Bucket :=
  {| pair_ := (KeyType_default, ValueType_default); is_occupied_ := false |}.

#[global] Instance Bucket_inhabited : Inhabited Bucket := populate Bucket_default.

(** [explicit Bucket(const StorageType &pair)] *)
Definition Bucket_of (pair : PairType) : Bucket :=
  {| pair_ := pair; is_occupied_ := true |}.

(** [operator=]: the pair is copied only from an occupied bucket. *)
Definition Bucket_assign (this other : Bucket) : Bucket :=
  {| pair_ := if is_occupied_ other then pair_ other else pair_ this;
     is_occupied_ := is_occupied_ other |}.

(** [Bucket(const Bucket &other)]: default members, then [operator=]. *)
Definition Bucket_copy (other : Bucket) : Bucket :=
  Bucket_assign Bucket_default other.

Definition Bucket_IsOccupied (this : Bucket) : bool := is_occupied_ this.

Definition Bucket_HasKey (this : Bucket) (other_key : KeyType) : bool :=
  Bucket_IsOccupied this && bool_decide ((pair_ this).1 = other_key).

Definition Bucket_Set (this : Bucket) (new_pair : PairType) : Bucket :=
  Bucket_assign this (Bucket_of (new_pair.1, new_pair.2)).

Definition Bucket_Erase (this : Bucket) : Bucket :=
  {| pair_ := pair_ this; is_occupied_ := false |}.

Definition Bucket_GetRef (this : Bucket) : PairType := pair_ this.

(** [std::swap] on two buckets: no move operations are declared, so it is a
    copy construction followed by two copy assignments. *)
Definition Bucket_swap (a b : Bucket) : Bucket * Bucket :=
  let tmp := Bucket_copy a in
  let a := Bucket_assign a b in
  let b := Bucket_assign b tmp in
  (a, b).

(** [std::swap(array_[i], array_[j])] *)
Definition array_swap (array_ : list Bucket) (i j : nat) : list Bucket :=
  let '(a, b) := Bucket_swap (array_ !!! i) (array_ !!! j) in
  <[j := b]> (<[i := a]> array_).

(** ** class BucketArray *)

Record BucketArray : Type := mkBucketArray {
  array_ : list Bucket;
  pairs_count_ : nat
}.

(** [BucketArray(size_t size, Hash hash)] *)
Definition BucketArray_new (size : nat) : BucketArray :=
  {| array_ := replicate (size + NEXT - 1) Bucket_default; pairs_count_ := 0 |}.

(** [operator=]: the vector is copied bucket by bucket.  Whether a bucket of
    the target is assigned or constructed anew is the vector's business; the
    two differ only in the pair of an unoccupied bucket. *)
Definition BucketArray_assign (this other : BucketArray) : BucketArray :=
  {| array_ := Bucket_copy <$> array_ other; pairs_count_ := pairs_count_ other |}.

(** The range [[it, End())] is passed as the list of its buckets. *)
Fixpoint FirstOccupied_from (range : list Bucket) (it : nat) : nat :=
  match range with
  | [] => it
  | bucket :: range' =>
      if Bucket_IsOccupied bucket then it else FirstOccupied_from range' (S it)
  end.

Definition BucketArray_End (this : BucketArray) : nat := length (array_ this).
Definition BucketArray_Begin (this : BucketArray) : nat := 0.

Definition BucketArray_FirstOccupiedBucket (this : BucketArray) (iter : nat) : nat :=
  FirstOccupied_from (drop iter (array_ this)) iter.

(** [GetIndex], on the vector it reads.  [array_.size() - NEXT + 1] is
    written [array_.size() + 1 - NEXT]: both are the same number for every
    length from [NEXT - 1] on, the shortest vector the constructor builds. *)
Definition GetIndex (array_ : list Bucket) (key : KeyType) : nat :=
  let length := length array_ + 1 - NEXT in
  hash_func_ key `mod` length.

Definition BucketArray_GetIndex (this : BucketArray) (key : KeyType) : nat :=
  GetIndex (array_ this) key.

(** The first loop of [Insert]: advance [empty_bucket] to the first bucket
    that is not occupied, or to [array_.size()]. *)
Fixpoint Insert_scan (fuel : nat) (array_ : list Bucket) (empty_bucket : nat) : nat :=
  match fuel with
  | 0 => empty_bucket
  | S fuel' =>
      if decide (empty_bucket < length array_) then
        if negb (Bucket_IsOccupied (array_ !!! empty_bucket)) then empty_bucket
        else Insert_scan fuel' array_ (S empty_bucket)
      else empty_bucket
  end.

(** The [for] loop over [pot_bucket].  [empty_bucket] is assigned inside the
    body and read by the loop test, as in the source. *)
Fixpoint Insert_for (fuel : nat) (array_ : list Bucket) (empty_bucket pot_bucket : nat)
    (swapped : bool) (log : list (InsertEvent Bucket))
    : list Bucket * nat * bool * list (InsertEvent Bucket) :=
  match fuel with
  | 0 => (array_, empty_bucket, swapped, log)
  | S fuel' =>
      if decide (pot_bucket < empty_bucket) then
        let bucket := array_ !!! pot_bucket in
        let ideal_index := GetIndex array_ (Bucket_GetRef bucket).1 in
        let log := log ++ [ReadKey pot_bucket (Bucket_IsOccupied bucket)] in
        if decide (empty_bucket < ideal_index + NEXT) then
          Insert_for fuel' (array_swap array_ pot_bucket empty_bucket) pot_bucket
            (S pot_bucket) true (log ++ [Swap pot_bucket empty_bucket bucket])
        else
          Insert_for fuel' array_ empty_bucket (S pot_bucket) swapped log
      else (array_, empty_bucket, swapped, log)
  end.

(** The [while] loop.  [empty_bucket - NEXT + 1] does not go below zero:
    the loop test gives [NEXT <= empty_bucket]. *)
Fixpoint Insert_while (fuel : nat) (arr_index : nat) (array_ : list Bucket)
    (empty_bucket : nat) (swapped : bool) (log : list (InsertEvent Bucket))
    : list Bucket * nat * bool * list (InsertEvent Bucket) :=
  match fuel with
  | 0 => (array_, empty_bucket, swapped, log)
  | S fuel' =>
      if decide (arr_index + NEXT ≤ empty_bucket) then
        let '(array_, empty_bucket, swapped, log) :=
          Insert_for NEXT array_ empty_bucket (empty_bucket - NEXT + 1) false log in
        if negb swapped then (array_, empty_bucket, swapped, log)
        else Insert_while fuel' arr_index array_ empty_bucket swapped log
      else (array_, empty_bucket, swapped, log)
  end.

(** [Insert], together with the events of its displacement loop. *)
Definition BucketArray_Insert_log (this : BucketArray) (pair : PairType)
    : BucketArray * (bool * PairRef) * list (InsertEvent Bucket) :=
  let result := (false, RefFake) in
  let arr_index := BucketArray_GetIndex this pair.1 in
  let empty_bucket := Insert_scan (length (array_ this)) (array_ this) arr_index in
  if decide (empty_bucket = length (array_ this)) then (this, result, [])
  else
    let '(array', empty_bucket, swapped, log) :=
      Insert_while (S empty_bucket) arr_index (array_ this) empty_bucket true [] in
    if swapped then
      ({| array_ := <[empty_bucket := Bucket_Set (array' !!! empty_bucket) pair]> array';
          pairs_count_ := S (pairs_count_ this) |},
       (true, RefArray empty_bucket), log)
    else
      ({| array_ := array'; pairs_count_ := pairs_count_ this |}, result, log).

Definition BucketArray_Insert (this : BucketArray) (pair : PairType)
    : BucketArray * (bool * PairRef) :=
  (BucketArray_Insert_log this pair).1.

(** The loop of [Find]: [n] buckets from [i] on.  The second component
    lists the indices whose bucket was read. *)
Fixpoint Find_loop (n : nat) (array_ : list Bucket) (key : KeyType) (i : nat)
    : option nat * list nat :=
  match n with
  | 0 => (None, [])
  | S n' =>
      if Bucket_HasKey (array_ !!! i) key then (Some i, [i])
      else let '(r, read) := Find_loop n' array_ key (S i) in (r, i :: read)
  end.

Definition BucketArray_Find_read (this : BucketArray) (key : KeyType) : list nat :=
  let arr_index := BucketArray_GetIndex this key in
  (Find_loop NEXT (array_ this) key arr_index).2.

Definition BucketArray_Find (this : BucketArray) (key : KeyType) : nat :=
  let arr_index := BucketArray_GetIndex this key in
  match (Find_loop NEXT (array_ this) key arr_index).1 with
  | Some i => BucketArray_Begin this + i
  | None => BucketArray_End this
  end.

(** [Erase].  [--pairs_count_] is reached only after [Find] has found an
    occupied bucket. *)
Definition BucketArray_Erase (this : BucketArray) (key : KeyType) : BucketArray * bool :=
  let it := BucketArray_Find this key in
  if decide (it ≠ BucketArray_End this) then
    ({| array_ := <[it := Bucket_Erase (array_ this !!! it)]> (array_ this);
        pairs_count_ := pairs_count_ this - 1 |}, true)
  else (this, false).

Definition BucketArray_PairsCount (this : BucketArray) : nat := pairs_count_ this.
Definition BucketArray_ArraySize (this : BucketArray) : nat := length (array_ this).

Definition BucketArray_LoadFactor (this : BucketArray) : Q :=
  Z.of_nat (pairs_count_ this) # Pos.of_nat (length (array_ this)).

(** ** class HashMap *)

Record HashMap : Type := mkHashMap {
  b_array_ : BucketArray;
  list_ : list Bucket
}.

(** [explicit HashMap(const Hash &hash = Hash())] *)
Definition HashMap_new : HashMap :=
  {| b_array_ := BucketArray_new INITIAL_SIZE; list_ := [] |}.

Definition HashMap_size (this : HashMap) : nat :=
  BucketArray_PairsCount (b_array_ this) + length (list_ this).

Definition HashMap_empty (this : HashMap) : bool :=
  bool_decide (HashMap_size this = 0).

Definition HashMap_begin (this : HashMap) : RawIterator :=
  {| b_array_iter_ := BucketArray_FirstOccupiedBucket (b_array_ this) (BucketArray_Begin (b_array_ this));
     b_array_end_ := BucketArray_End (b_array_ this);
     list_iter_ := 0;
     list_end_ := length (list_ this) |}.

Definition HashMap_end (this : HashMap) : RawIterator :=
  {| b_array_iter_ := BucketArray_End (b_array_ this);
     b_array_end_ := BucketArray_End (b_array_ this);
     list_iter_ := length (list_ this);
     list_end_ := length (list_ this) |}.

(** The inner loop of [operator++]: the range [(it, End())] is passed as the
    list of its buckets. *)
Fixpoint incr_from (range : list Bucket) (it : nat) : nat :=
  match range with
  | [] => S it
  | bucket :: range' =>
      if Bucket_IsOccupied bucket then S it else incr_from range' (S it)
  end.

(** [operator++] on an iterator into [this]. *)
Definition RawIterator_incr (this : HashMap) (it : RawIterator) : RawIterator :=
  if decide (b_array_iter_ it ≠ b_array_end_ it) then
    {| b_array_iter_ := incr_from (drop (S (b_array_iter_ it)) (array_ (b_array_ this))) (b_array_iter_ it);
       b_array_end_ := b_array_end_ it;
       list_iter_ := list_iter_ it;
       list_end_ := list_end_ it |}
  else
    {| b_array_iter_ := b_array_iter_ it;
       b_array_end_ := b_array_end_ it;
       list_iter_ := S (list_iter_ it);
       list_end_ := list_end_ it |}.

(** The place [operator*] designates. *)
Definition RawIterator_ref (it : RawIterator) : PairRef :=
  if decide (b_array_iter_ it ≠ b_array_end_ it) then RefArray (b_array_iter_ it)
  else RefList (list_iter_ it).

(** Reading through a reference into [this]. *)
Definition HashMap_deref (this : HashMap) (ref : PairRef) : PairType :=
  match ref with
  | RefFake => (KeyType_default, ValueType_default)
  | RefArray i => Bucket_GetRef (array_ (b_array_ this) !!! i)
  | RefList i => Bucket_GetRef (list_ this !!! i)
  end.

(** Writing the value ([.second]) through a reference into [this]. *)
Definition Bucket_set_second (this : Bucket) (value : ValueType) : Bucket :=
  {| pair_ := ((pair_ this).1, value); is_occupied_ := is_occupied_ this |}.

Definition HashMap_assign_second (this : HashMap) (ref : PairRef) (value : ValueType) : HashMap :=
  match ref with
  | RefFake => this
  | RefArray i =>
      {| b_array_ :=
           {| array_ := <[i := Bucket_set_second (array_ (b_array_ this) !!! i) value]> (array_ (b_array_ this));
              pairs_count_ := pairs_count_ (b_array_ this) |};
         list_ := list_ this |}
  | RefList i =>
      {| b_array_ := b_array_ this;
         list_ := <[i := Bucket_set_second (list_ this !!! i) value]> (list_ this) |}
  end.

(** The scan of [list_] in [find] and [erase]. *)
Fixpoint list_scan (range : list Bucket) (key : KeyType) (iter : nat) : option nat :=
  match range with
  | [] => None
  | bucket :: range' =>
      if bool_decide ((Bucket_GetRef bucket).1 = key) then Some iter
      else list_scan range' key (S iter)
  end.

Definition HashMap_find (this : HashMap) (key : KeyType) : RawIterator :=
  let it := BucketArray_Find (b_array_ this) key in
  if decide (it ≠ BucketArray_End (b_array_ this)) then
    mkRawIterator it (BucketArray_End (b_array_ this)) 0 (length (list_ this))
  else
    match list_scan (list_ this) key 0 with
    | Some iter =>
        mkRawIterator (BucketArray_End (b_array_ this)) (BucketArray_End (b_array_ this))
          iter (length (list_ this))
    | None =>
        mkRawIterator (BucketArray_End (b_array_ this)) (BucketArray_End (b_array_ this))
          (length (list_ this)) (length (list_ this))
    end.

(** The range-[for] of [Reconstruct] over [*this]. *)
Fixpoint Reconstruct_loop (fuel : nat) (this : HashMap) (it : RawIterator)
    (tmp_map : BucketArray) (tmp_list : list Bucket) : BucketArray * list Bucket :=
  match fuel with
  | 0 => (tmp_map, tmp_list)
  | S fuel' =>
      if negb (RawIterator_eq it (HashMap_end this)) then
        let bucket := HashMap_deref this (RawIterator_ref it) in
        let '(tmp_map, (success, _)) := BucketArray_Insert tmp_map bucket in
        let tmp_list := if negb success then tmp_list ++ [Bucket_of bucket] else tmp_list in
        Reconstruct_loop fuel' this (RawIterator_incr this it) tmp_map tmp_list
      else (tmp_map, tmp_list)
  end.

(** [Reconstruct].  [ArraySize() - NEXT + 1] is written as in [GetIndex]. *)
Definition HashMap_Reconstruct (this : HashMap) (change_size clear : bool) : HashMap :=
  let new_size := BucketArray_ArraySize (b_array_ this) + 1 - NEXT in
  let new_size :=
    if change_size then
      if Qltb (BucketArray_LoadFactor (b_array_ this)) MIN_LOAD_FACTOR
      then new_size / 2 else new_size * 2
    else new_size in
  let new_size := new_size `max` INITIAL_SIZE in
  let tmp_map := BucketArray_new new_size in
  let tmp_list := [] in
  let '(tmp_map, tmp_list) :=
    if negb clear then
      Reconstruct_loop (S (BucketArray_ArraySize (b_array_ this) + length (list_ this)))
        this (HashMap_begin this) tmp_map tmp_list
    else (tmp_map, tmp_list) in
  {| b_array_ := BucketArray_assign (b_array_ this) tmp_map;
     list_ := Bucket_copy <$> tmp_list |}.

Definition HashMap_ForceInsert (this : HashMap) (pair : PairType) : HashMap * PairRef :=
  let load_factor := BucketArray_LoadFactor (b_array_ this) in
  let this :=
    if Qltb MAX_LOAD_FACTOR load_factor || Qltb load_factor MIN_LOAD_FACTOR
    then HashMap_Reconstruct this true false else this in
  let '(b_array', (success, ref)) := BucketArray_Insert (b_array_ this) pair in
  if negb success then
    ({| b_array_ := b_array'; list_ := list_ this ++ [Bucket_of pair] |},
     RefList (length (list_ this)))
  else
    ({| b_array_ := b_array'; list_ := list_ this |}, ref).

Definition HashMap_insert (this : HashMap) (pair : PairType) : HashMap :=
  if RawIterator_eq (HashMap_find this pair.1) (HashMap_end this) then
    (HashMap_ForceInsert this pair).1
  else this.

Definition HashMap_erase (this : HashMap) (key : KeyType) : HashMap :=
  let '(b_array', erased) := BucketArray_Erase (b_array_ this) key in
  if negb erased then
    match list_scan (list_ this) key 0 with
    | Some it => {| b_array_ := b_array'; list_ := delete it (list_ this) |}
    | None => {| b_array_ := b_array'; list_ := list_ this |}
    end
  else {| b_array_ := b_array'; list_ := list_ this |}.

(** [operator[]]: the map afterwards and the reference returned. *)
Definition HashMap_index (this : HashMap) (key : KeyType) : HashMap * PairRef :=
  let it := HashMap_find this key in
  if RawIterator_eq it (HashMap_end this) then
    let new_pair := (key, ValueType_default) in
    HashMap_ForceInsert this new_pair
  else (this, RawIterator_ref it).

(** [at] is a [const] member: it yields a value or throws, and has no map
    to return. *)
Definition HashMap_at (this : HashMap) (key : KeyType) : exception + ValueType :=
  let it := HashMap_find this key in
  if RawIterator_eq it (HashMap_end this) then
    inl (out_of_range "Key was not found")
  else inr (HashMap_deref this (RawIterator_ref it)).2.

Definition HashMap_clear (this : HashMap) : HashMap :=
  HashMap_Reconstruct this false true.

End HashMapModel.

Arguments NEXT : simpl never.
Arguments INITIAL_SIZE : simpl never.

(** ** Vocabulary of the properties *)

Section HashMapSpec.

Context {KeyType ValueType : Type} {params : HashMapParams KeyType ValueType}.

Local Abbreviation Bucket := (@Bucket KeyType ValueType).
Local Abbreviation BucketArray := (@BucketArray KeyType ValueType).
Local Abbreviation HashMap := (@HashMap KeyType ValueType).
Local Abbreviation PairType := (KeyType * ValueType)%type.

(** The number of addressable positions of a table; its vector has
    [capacity + NEXT - 1] buckets. *)
Definition capacity (this : BucketArray) : nat := length (array_ this) + 1 - NEXT.

(** The pairs a vector of buckets stores: those of its occupied buckets, in
    physical order. *)
Definition bucket_pairs (bucket : Bucket) : list PairType :=
  if is_occupied_ bucket then [pair_ bucket] else [].

Definition contents (array_ : list Bucket) : list PairType :=
  array_ ≫= bucket_pairs.

Definition occupied_count (array_ : list Bucket) : nat :=
  length (filter (λ bucket, is_occupied_ bucket = true) array_).

(** Physical index [j] lies in the window of [key]. *)
Definition in_window (array_ : list Bucket) (key : KeyType) (j : nat) : Prop :=
  GetIndex array_ key ≤ j < GetIndex array_ key + NEXT.

(** The placement invariant of a table. *)
Definition placed (array_ : list Bucket) : Prop :=
  ∀ j bucket, array_ !! j = Some bucket → is_occupied_ bucket = true →
    in_window array_ (pair_ bucket).1 j.

(** The pairs of the map: the table's, then the overflow store's. *)
Definition elements (this : HashMap) : list PairType :=
  contents (array_ (b_array_ this)) ++ (pair_ <$> list_ this).

Definition table_keys (this : HashMap) : list KeyType :=
  (contents (array_ (b_array_ this))).*1.

Definition overflow_keys (this : HashMap) : list KeyType :=
  (pair_ <$> list_ this).*1.

(** The invariant of the map. *)
Record wf (this : HashMap) : Prop := mk_wf {
  wf_capacity : INITIAL_SIZE ≤ capacity (b_array_ this);
  wf_placed : placed (array_ (b_array_ this));
  wf_count : pairs_count_ (b_array_ this) = length (contents (array_ (b_array_ this)));
  wf_list : Forall (λ bucket, is_occupied_ bucket = true) (list_ this);
  wf_nodup : NoDup (elements this).*1
}.

(** A key is read from an occupied bucket of the vector only. *)
Definition read_occupied (array_ : list Bucket) (ev : InsertEvent Bucket) : Prop :=
  match ev with
  | ReadKey pot_bucket occupied => occupied = true ∧ pot_bucket < length array_
  | Swap _ _ _ => True
  end.

(** A swap moves an occupied bucket up, from an index inside the window of
    its key to another index inside that window. *)
Definition swap_in_window (array_ : list Bucket) (ev : InsertEvent Bucket) : Prop :=
  match ev with
  | ReadKey _ _ => True
  | Swap pot_bucket empty_bucket moved =>
      is_occupied_ moved = true ∧ pot_bucket < empty_bucket < length array_ ∧
      in_window array_ (pair_ moved).1 pot_bucket ∧
      in_window array_ (pair_ moved).1 empty_bucket
  end.

(** What the proofs maintain about an event of an insert into [array_]. *)
Definition event_ok (array_ : list Bucket) (ev : InsertEvent Bucket) : Prop :=
  read_occupied array_ ev ∧ (placed array_ → swap_in_window array_ ev).

(** The loop invariant of the displacement: [arr] rearranges the pairs of
    [arr0] and keeps its placement invariant, [empty_bucket] is a free
    bucket, and every bucket from the ideal index [arr_index] up to it is
    occupied. *)
Definition displaced (arr0 : list Bucket) (arr_index : nat) (arr : list Bucket)
    (empty_bucket : nat) : Prop :=
  length arr = length arr0 ∧ (placed arr0 → placed arr) ∧
  contents arr ≡ₚ contents arr0 ∧
  arr_index ≤ empty_bucket < length arr ∧
  (∀ q, arr_index ≤ q < empty_bucket → is_occupied_ (arr !!! q) = true) ∧
  is_occupied_ (arr !!! empty_bucket) = false.

(** One step of the range-[for] of [Reconstruct]: the pair goes to the new
    table, or to the new overflow store when the table refuses it. *)
Definition reinsert (tmp : BucketArray * list Bucket) (bucket : PairType)
    : BucketArray * list Bucket :=
  let '(tmp_map, (success, _)) := BucketArray_Insert tmp.1 bucket in
  (tmp_map, if negb success then tmp.2 ++ [Bucket_of bucket] else tmp.2).

(** The invariant of a table on its own. *)
Definition table_ok (this : BucketArray) : Prop :=
  NEXT ≤ length (array_ this) ∧ placed (array_ this) ∧
  pairs_count_ this = length (contents (array_ this)).

(** The reference designates a stored pair with the key. *)
Definition ref_holds (this : HashMap) (ref : PairRef) (key : KeyType) : Prop :=
  match ref with
  | RefFake => False
  | RefArray i =>
      ∃ bucket, array_ (b_array_ this) !! i = Some bucket ∧
        is_occupied_ bucket = true ∧ (pair_ bucket).1 = key
  | RefList i => ∃ bucket, list_ this !! i = Some bucket ∧ (pair_ bucket).1 = key
  end.

(** The public operations that change the map.  [OpIndexAssign k v] is
    [map[k] = v]: [operator[]] followed by a write through the reference it
    returned. *)
Inductive HashMapOp : Type :=
  | OpInsert (pair : PairType)
  | OpErase (key : KeyType)
  | OpIndex (key : KeyType)
  | OpIndexAssign (key : KeyType) (value : ValueType)
  | OpClear.

Definition HashMap_apply (this : HashMap) (op : HashMapOp) : HashMap :=
  match op with
  | OpInsert new_pair => HashMap_insert this new_pair
  | OpErase key => HashMap_erase this key
  | OpIndex key => (HashMap_index this key).1
  | OpIndexAssign key value =>
      let '(this, ref) := HashMap_index this key in
      HashMap_assign_second this ref value
  | OpClear => HashMap_clear this
  end.

(** The states a map goes through, from its construction. *)
Inductive reachable : HashMap → Prop :=
  | reachable_new : reachable HashMap_new
  | reachable_apply this op : reachable this → reachable (HashMap_apply this op).

(** The value [find] gives access to, if any. *)
Definition found (this : HashMap) (key : KeyType) : option ValueType :=
  let it := HashMap_find this key in
  if RawIterator_eq it (HashMap_end this) then None
  else Some (HashMap_deref this (RawIterator_ref it)).2.

(** The map after the load-factor check of [ForceInsert]. *)
Definition after_load_check (this : HashMap) : HashMap :=
  let load_factor := BucketArray_LoadFactor (b_array_ this) in
  if Qltb MAX_LOAD_FACTOR load_factor || Qltb load_factor MIN_LOAD_FACTOR
  then HashMap_Reconstruct this true false else this.

(** First-insert-wins on a sequence of pairs: the value of the first pair
    with the key. *)
Fixpoint first_value (pairs : list PairType) (key : KeyType) : option ValueType :=
  match pairs with
  | [] => None
  | new_pair :: pairs' =>
      if bool_decide (new_pair.1 = key) then Some new_pair.2 else first_value pairs' key
  end.

(** The value of the last pair with the key. *)
Definition last_value (pairs : list PairType) (key : KeyType) : option ValueType :=
  first_value (reverse pairs) key.

End HashMapSpec.

(** ** Concrete maps for the examples: [HashMap<nat, nat, Hash>] *)

Definition nat_params (hash : nat → nat) : HashMapParams nat nat :=
  {| KeyType_eq_dec := Nat.eq_dec;
     KeyType_default := 0;
     ValueType_default := 0;
     hash_func_ := hash |}.

(** The identity as hash function. *)
Definition params_id : HashMapParams nat nat := nat_params id.

(** A hash function that sends every key to the same ideal index. *)
Definition params_const : HashMapParams nat nat := nat_params (λ _, 0).

(** A hash function that sends every key to the last addressable position
    of a table of capacity 32 or 64. *)
Definition params_last : HashMapParams nat nat := nat_params (λ _, 63).

(** [insert] of the keys of [keys], in order, each with the value
    [key + 1000]. *)
Definition insert_keys (params : HashMapParams nat nat) (this : @HashMap nat nat)
    (keys : list nat) : @HashMap nat nat :=
  foldl (λ this key, HashMap_apply this (OpInsert (key, key + 1000))) this keys.

(** The keys [0 .. 32] in a map with the identity hash: the 33rd insert has
    doubled the capacity to 64. *)
Definition map_33 : @HashMap nat nat :=
  insert_keys params_id (HashMap_new (params := params_id)) (seq 0 33).

(** 33 keys with one ideal index. *)
Definition map_const_33 : @HashMap nat nat :=
  insert_keys params_const (HashMap_new (params := params_const)) (seq 0 33).

(** 32 keys whose ideal index is the last addressable position. *)
Definition map_last_32 : @HashMap nat nat :=
  insert_keys params_last (HashMap_new (params := params_last)) (seq 0 32).

(** 64 keys that share one ideal index in a table of capacity 32 or 64 and
    two ideal indices in a table of capacity 128, then 16 keys elsewhere:
    the table of capacity 64 holds 48 pairs and the overflow store 32. *)
Definition map_dense : @HashMap nat nat :=
  insert_keys params_id (HashMap_new (params := params_id))
    (((λ j, 64 * j) <$> seq 0 64) ++ seq 100 16).

(** ** The rest of the interface: traversal, range construction, and the
    finite map the container implements *)

Section HashMapInterface.

Context {KeyType ValueType : Type} {params : HashMapParams KeyType ValueType}.

Local Abbreviation Bucket := (@Bucket KeyType ValueType).
Local Abbreviation BucketArray := (@BucketArray KeyType ValueType).
Local Abbreviation HashMap := (@HashMap KeyType ValueType).
Local Abbreviation PairType := (KeyType * ValueType)%type.

(** [operator!=] of [RawIterator] *)
Definition RawIterator_neq (first second : RawIterator) : bool :=
  negb (RawIterator_eq first second).

(** [operator++(int)]: the iterator before the step is returned, the
    iterator itself has moved. *)
Definition RawIterator_post_incr (this : HashMap) (it : RawIterator)
    : RawIterator * RawIterator :=
  let before := it in
  (before, RawIterator_incr this it).

(** The loop [for (; it != end(); ++it)] over [this], collecting [*it]. *)
Fixpoint traverse_from (fuel : nat) (this : HashMap) (it : RawIterator) : list PairType :=
  match fuel with
  | 0 => []
  | S fuel' =>
      if RawIterator_neq it (HashMap_end this) then
        HashMap_deref this (RawIterator_ref it)
        :: traverse_from fuel' this (RawIterator_incr this it)
      else []
  end.

(** [for (const auto &pair : map)], from [begin()]. *)
Definition HashMap_traverse (this : HashMap) : list PairType :=
  traverse_from (S (BucketArray_ArraySize (b_array_ this) + length (list_ this)))
    this (HashMap_begin this).

(** [HashMap(InputIt first, InputIt second, const Hash &hash)]; the
    initializer-list constructor delegates to it. *)
Definition HashMap_from_range (range : list PairType) : HashMap :=
  foldl HashMap_insert HashMap_new range.

(** [hash_function()] *)
Definition HashMap_hash_function (this : HashMap) : KeyType → nat := hash_func_.

(** The finite map a sequence of operations denotes: what each public
    operation does to the value associated with each key. *)
Definition model_apply (view : KeyType → option ValueType) (op : HashMapOp)
    : KeyType → option ValueType :=
  λ key',
    match op with
    | OpInsert new_pair =>
        if bool_decide (new_pair.1 = key') then
          match view key' with Some value => Some value | None => Some new_pair.2 end
        else view key'
    | OpErase key => if bool_decide (key = key') then None else view key'
    | OpIndex key =>
        if bool_decide (key = key') then
          match view key' with Some value => Some value | None => Some ValueType_default end
        else view key'
    | OpIndexAssign key value =>
        if bool_decide (key = key') then Some value else view key'
    | OpClear => None
    end.

End HashMapInterface.

(** * Proofs *)

Section HashMapProofs.

Context {KeyType ValueType : Type} {params : HashMapParams KeyType ValueType}.

Local Abbreviation Bucket := (@Bucket KeyType ValueType).
Local Abbreviation BucketArray := (@BucketArray KeyType ValueType).
Local Abbreviation HashMap := (@HashMap KeyType ValueType).
Local Abbreviation PairType := (KeyType * ValueType)%type.

Implicit Types (arr range : list Bucket) (bucket : Bucket) (key : KeyType).

(** ** Buckets and the pairs they store *)

Lemma NEXT_pos : 0 < NEXT.
Proof. unfold NEXT; lia. Qed.

Lemma Bucket_Set_of bucket (p : PairType) : Bucket_Set bucket p = Bucket_of p.
Proof. by destruct p. Qed.

Lemma Bucket_copy_occupied bucket :
  is_occupied_ bucket = true → Bucket_copy bucket = bucket.
Proof. destruct bucket as [p o]; simpl; intros ->; done. Qed.

Lemma contents_app arr1 arr2 : contents (arr1 ++ arr2) = contents arr1 ++ contents arr2.
Proof. apply bind_app. Qed.

Lemma contents_cons bucket arr : contents (bucket :: arr) = bucket_pairs bucket ++ contents arr.
Proof. done. Qed.

Lemma contents_split arr i bucket :
  arr !! i = Some bucket →
  contents arr = contents (take i arr) ++ bucket_pairs bucket ++ contents (drop (S i) arr).
Proof.
  intros Hi. rewrite <- (take_drop_middle arr i bucket Hi) at 1.
  by rewrite contents_app, contents_cons.
Qed.

Lemma contents_insert arr i bucket :
  i < length arr →
  contents (<[i:=bucket]> arr)
  = contents (take i arr) ++ bucket_pairs bucket ++ contents (drop (S i) arr).
Proof.
  intros Hi. rewrite insert_take_drop by done.
  by rewrite contents_app, contents_cons.
Qed.

Lemma elem_of_contents arr (p : PairType) :
  p ∈ contents arr ↔ ∃ j bucket, arr !! j = Some bucket ∧ is_occupied_ bucket = true ∧ pair_ bucket = p.
Proof.
  unfold contents. rewrite list_elem_of_bind. split.
  - intros (bucket & Hp & Hin). apply list_elem_of_lookup in Hin as [j Hj].
    exists j, bucket. unfold bucket_pairs in Hp.
    destruct (is_occupied_ bucket); [|by apply not_elem_of_nil in Hp].
    apply list_elem_of_singleton in Hp. done.
  - intros (j & bucket & Hj & Hocc & <-). exists bucket. split.
    + unfold bucket_pairs. rewrite Hocc. apply list_elem_of_singleton. done.
    + apply list_elem_of_lookup. eauto.
Qed.

Lemma contents_unoccupied arr :
  Forall (λ bucket, is_occupied_ bucket = false) arr → contents arr = [].
Proof.
  induction 1 as [|bucket arr Hb _ IH]; [done|].
  rewrite contents_cons, IH. unfold bucket_pairs. by rewrite Hb.
Qed.

Lemma contents_replicate n : contents (replicate n Bucket_default) = [].
Proof. apply contents_unoccupied, Forall_replicate. done. Qed.

Lemma contents_copy arr : contents (Bucket_copy <$> arr) = contents arr.
Proof.
  induction arr as [|bucket arr IH]; [done|].
  rewrite fmap_cons, !contents_cons, IH. f_equal.
  destruct bucket as [p []]; done.
Qed.

Lemma contents_occupied arr :
  Forall (λ bucket, is_occupied_ bucket = true) arr → contents arr = pair_ <$> arr.
Proof.
  induction 1 as [|bucket arr Hb _ IH]; [done|].
  rewrite contents_cons, IH, fmap_cons. unfold bucket_pairs. by rewrite Hb.
Qed.

Lemma length_contents arr : length (contents arr) = occupied_count arr.
Proof.
  unfold occupied_count. induction arr as [|bucket arr IH]; [done|].
  rewrite contents_cons, length_app, IH, filter_cons. unfold bucket_pairs.
  destruct (is_occupied_ bucket); case_decide; done.
Qed.

Lemma contents_insert_fill arr i bucket bucket' :
  arr !! i = Some bucket → is_occupied_ bucket = false → is_occupied_ bucket' = true →
  contents (<[i:=bucket']> arr) ≡ₚ pair_ bucket' :: contents arr.
Proof.
  intros Hi Hb Hb'. rewrite (contents_split arr i bucket Hi).
  rewrite contents_insert by (by eapply lookup_lt_Some).
  unfold bucket_pairs. rewrite Hb, Hb'. simpl.
  by rewrite <- Permutation_middle.
Qed.

Lemma contents_insert_free arr i bucket bucket' :
  arr !! i = Some bucket → is_occupied_ bucket = true → is_occupied_ bucket' = false →
  contents arr ≡ₚ pair_ bucket :: contents (<[i:=bucket']> arr).
Proof.
  intros Hi Hb Hb'. rewrite (contents_split arr i bucket Hi).
  rewrite contents_insert by (by eapply lookup_lt_Some).
  unfold bucket_pairs. rewrite Hb, Hb'. simpl.
  by rewrite <- Permutation_middle.
Qed.

Lemma contents_insert_keep arr i bucket bucket' :
  arr !! i = Some bucket → is_occupied_ bucket = true → is_occupied_ bucket' = true →
  pair_ bucket' :: contents arr ≡ₚ pair_ bucket :: contents (<[i:=bucket']> arr).
Proof.
  intros Hi Hb Hb'. rewrite (contents_split arr i bucket Hi).
  rewrite contents_insert by (by eapply lookup_lt_Some).
  unfold bucket_pairs. rewrite Hb, Hb'. simpl.
  rewrite <- !Permutation_middle. apply perm_swap.
Qed.

(** ** Ideal indices and the placement invariant *)

Lemma GetIndex_length arr1 arr2 key :
  length arr1 = length arr2 → GetIndex arr1 key = GetIndex arr2 key.
Proof. unfold GetIndex. by intros ->. Qed.

Lemma GetIndex_lt arr key :
  NEXT ≤ length arr → GetIndex arr key < length arr + 1 - NEXT.
Proof. intros Hlen. unfold GetIndex. apply Nat.mod_upper_bound. lia. Qed.

Lemma in_window_length arr1 arr2 key j :
  length arr1 = length arr2 → in_window arr1 key j → in_window arr2 key j.
Proof. unfold in_window. intros Hlen. by rewrite (GetIndex_length arr1 arr2). Qed.

Lemma placed_insert arr i bucket' :
  placed arr →
  (is_occupied_ bucket' = true → in_window arr (pair_ bucket').1 i) →
  placed (<[i:=bucket']> arr).
Proof.
  intros Hpl Hnew j bucket Hj Hocc.
  apply (in_window_length arr); [by rewrite length_insert|].
  destruct (decide (i = j)) as [->|Hne].
  - assert (j < length arr) as Hlt.
    { apply lookup_lt_Some in Hj. by rewrite length_insert in Hj. }
    rewrite list_lookup_insert_eq in Hj by done. injection Hj as <-. auto.
  - rewrite list_lookup_insert_ne in Hj by done. eauto.
Qed.

Lemma placed_replicate n : placed (replicate n Bucket_default).
Proof. intros j bucket [-> _]%lookup_replicate. done. Qed.

Lemma placed_copy arr : placed arr → placed (Bucket_copy <$> arr).
Proof.
  intros Hpl j bucket Hj Hocc.
  apply (in_window_length arr); [by rewrite length_fmap|].
  rewrite list_lookup_fmap in Hj.
  destruct (arr !! j) as [bucket0|] eqn:Hj0; [|done]. injection Hj as <-.
  assert (is_occupied_ bucket0 = true) as Hocc0 by done.
  rewrite Bucket_copy_occupied by done. eauto.
Qed.

(** ** The loops of [BucketArray::Insert] *)

Lemma Insert_scan_spec fuel arr e :
  length arr ≤ fuel + e → e ≤ length arr →
  e ≤ Insert_scan fuel arr e ≤ length arr ∧
  (∀ q, e ≤ q < Insert_scan fuel arr e → is_occupied_ (arr !!! q) = true) ∧
  (Insert_scan fuel arr e < length arr →
   is_occupied_ (arr !!! Insert_scan fuel arr e) = false).
Proof.
  revert e. induction fuel as [|fuel IH]; intros e Hfuel He; simpl.
  - repeat split; intros; lia.
  - case_decide as Hlt; [|repeat split; intros; lia].
    unfold Bucket_IsOccupied.
    destruct (is_occupied_ (arr !!! e)) eqn:Hocc; simpl.
    + destruct (IH (S e)) as (Hr & Hbefore & Hat); [lia..|].
      split; [lia|]. split; [|done].
      intros q Hq. destruct (decide (q = e)) as [->|]; [done|]. apply Hbefore. lia.
    + repeat split; intros; try lia. done.
Qed.

Lemma array_swap_eq arr q e :
  is_occupied_ (arr !!! q) = true → is_occupied_ (arr !!! e) = false →
  array_swap arr q e
  = <[e := Bucket_of (pair_ (arr !!! q))]> (<[q := Bucket_Erase (arr !!! q)]> arr).
Proof.
  intros Hq He. unfold array_swap, Bucket_swap, Bucket_copy, Bucket_assign.
  cbv zeta. rewrite He. cbn [is_occupied_ pair_]. rewrite Hq. done.
Qed.

Lemma displaced_swap arr0 arr_index arr q e :
  displaced arr0 arr_index arr e →
  arr_index ≤ q < e → e < GetIndex arr (pair_ (arr !!! q)).1 + NEXT →
  displaced arr0 arr_index (array_swap arr q e) q ∧
  event_ok arr0 (Swap q e (arr !!! q)).
Proof.
  intros (Hlen & Hpl & Hperm & Hrange & Hocc & Hfree) Hq Hwin.
  assert (is_occupied_ (arr !!! q) = true) as Hoq by (apply Hocc; lia).
  assert (arr !! q = Some (arr !!! q)) as Hlq by (apply list_lookup_lookup_total_lt; lia).
  assert (arr !! e = Some (arr !!! e)) as Hle by (apply list_lookup_lookup_total_lt; lia).
  assert (placed arr0 → in_window arr (pair_ (arr !!! q)).1 q) as Hwq.
  { intros Hpl0. by apply (Hpl Hpl0 q). }
  rewrite array_swap_eq by done.
  set (arr1 := <[q:=Bucket_Erase (arr !!! q)]> arr).
  assert (length arr1 = length arr) as Hlen1 by apply length_insert.
  assert (arr1 !! e = Some (arr !!! e)) as Hle1.
  { unfold arr1. rewrite list_lookup_insert_ne by lia. done. }
  split; [unfold displaced; split_and!|].
  - by rewrite length_insert, Hlen1.
  - intros Hpl0. specialize (Hwq Hpl0). apply placed_insert.
    + apply placed_insert; [auto|]. done.
    + simpl. intros _. apply (in_window_length arr); [done|].
      unfold in_window in *. lia.
  - rewrite <- Hperm.
    rewrite (contents_insert_fill arr1 e (arr !!! e)) by done. simpl.
    symmetry. apply (contents_insert_free arr q (arr !!! q)); done.
  - lia.
  - rewrite length_insert, Hlen1. lia.
  - intros q' Hq'. rewrite list_lookup_total_insert_ne by lia.
    unfold arr1. rewrite list_lookup_total_insert_ne by lia. apply Hocc. lia.
  - rewrite list_lookup_total_insert_ne by lia.
    unfold arr1. rewrite list_lookup_total_insert_eq by lia. done.
  - split; [done|]. intros Hpl0. specialize (Hwq Hpl0). simpl.
    split_and!; [done|lia|lia| |].
    + by apply (in_window_length arr).
    + apply (in_window_length arr); [done|]. unfold in_window in *. lia.
Qed.

Lemma Insert_for_spec arr0 arr_index fuel arr e pot sw log arr' e' sw' log' :
  Insert_for fuel arr e pot sw log = (arr', e', sw', log') →
  e < fuel + pot → arr_index ≤ pot →
  displaced arr0 arr_index arr e → Forall (event_ok arr0) log →
  Forall (event_ok arr0) log' ∧ displaced arr0 arr_index arr' e' ∧
  ((arr' = arr ∧ e' = e ∧ sw' = sw) ∨ (e' < e ∧ sw' = true)).
Proof.
  revert arr e pot sw log. induction fuel as [|fuel IH]; intros arr e pot sw log;
    cbn [Insert_for].
  - intros [= <- <- <- <-] ? ? ? ?. split_and!; [done|done|by left].
  - case_decide as Hlt; [|intros [= <- <- <- <-] ? ? ? ?; split_and!; [done|done|by left]].
    intros Hrun Hfuel Hpot Hinv Hlog.
    assert (Forall (event_ok arr0)
              (log ++ [ReadKey pot (Bucket_IsOccupied (arr !!! pot))])) as Hlog1.
    { apply Forall_app. split; [done|]. apply Forall_singleton.
      destruct Hinv as (Hlen & _ & _ & Hrange & Hocc & _).
      split; [|done]. simpl. split; [apply Hocc; lia | lia]. }
    case_decide as Hwin.
    + destruct (displaced_swap arr0 arr_index arr pot e) as [Hinv' Hev]; [done|lia|done|].
      apply IH in Hrun; [|lia|lia|done|].
      * destruct Hrun as (Hlog' & Hinv'' & [(-> & -> & ->)|[? ->]]);
          split_and!; auto; right; split; auto; lia.
      * apply Forall_app. split; [done|]. by apply Forall_singleton.
    + apply IH in Hrun; [done|lia|lia|done|done].
Qed.

Lemma Insert_while_spec arr0 arr_index fuel arr e log arr' e' sw' log' :
  Insert_while fuel arr_index arr e true log = (arr', e', sw', log') →
  e < fuel →
  displaced arr0 arr_index arr e → Forall (event_ok arr0) log →
  Forall (event_ok arr0) log' ∧ displaced arr0 arr_index arr' e' ∧
  (sw' = true → e' < arr_index + NEXT).
Proof.
  revert arr e log. induction fuel as [|fuel IH]; intros arr e log; [lia|].
  cbn [Insert_while].
  case_decide as Hout; [|intros [= <- <- <- <-] ? ? ?; split_and!; [done|done|lia]].
  destruct (Insert_for NEXT arr e (e - NEXT + 1) false log)
    as [[[arr1 e1] sw1] log1] eqn:Hfor.
  intros Hrun Hfuel Hinv Hlog.
  pose proof NEXT_pos.
  eapply (Insert_for_spec arr0 arr_index) in Hfor; [|lia|lia|done|done].
  destruct Hfor as (Hlog1 & Hinv1 & Hcase).
  destruct sw1; cbn [negb] in Hrun.
  - destruct Hcase as [(_ & _ & ?)|[He1 _]]; [done|].
    eapply IH; [done|lia|done|done].
  - injection Hrun as <- <- <- <-. split_and!; [done|done|done].
Qed.

(** The amount of fuel given to the [while] loop does not matter, as long
    as it exceeds [empty_bucket]: the loop has ended by then. *)
Lemma Insert_while_fuel arr0 arr_index fuel1 fuel2 arr e sw log :
  e < fuel1 → e < fuel2 → displaced arr0 arr_index arr e →
  Forall (event_ok arr0) log →
  Insert_while fuel1 arr_index arr e sw log = Insert_while fuel2 arr_index arr e sw log.
Proof.
  revert fuel2 arr e sw log.
  induction fuel1 as [|fuel1 IH]; intros fuel2 arr e sw log Hf1 Hf2 Hinv Hlog; [lia|].
  destruct fuel2 as [|fuel2]; [lia|]. cbn [Insert_while].
  case_decide as Hout; [|done].
  destruct (Insert_for NEXT arr e (e - NEXT + 1) false log)
    as [[[arr1 e1] sw1] log1] eqn:Hfor.
  pose proof NEXT_pos.
  eapply (Insert_for_spec arr0 arr_index) in Hfor; [|lia|lia|done|done].
  destruct Hfor as (Hlog1 & Hinv1 & Hcase). destruct sw1; cbn [negb]; [|done].
  destruct Hcase as [(_ & _ & ?)|[He1 _]]; [done|].
  apply IH; [lia|lia|done|done].
Qed.

Lemma BucketArray_Insert_log_spec (this : BucketArray) (p : PairType) b' success ref log :
  BucketArray_Insert_log this p = (b', (success, ref), log) →
  GetIndex (array_ this) p.1 ≤ length (array_ this) →
  length (array_ b') = length (array_ this) ∧
  (placed (array_ this) → placed (array_ b')) ∧
  Forall (event_ok (array_ this)) log ∧
  (if success then
     contents (array_ b') ≡ₚ p :: contents (array_ this) ∧
     pairs_count_ b' = S (pairs_count_ this) ∧
     ∃ e, ref = RefArray e ∧ array_ b' !! e = Some (Bucket_of p)
   else
     contents (array_ b') ≡ₚ contents (array_ this) ∧
     pairs_count_ b' = pairs_count_ this ∧ ref = RefFake).
Proof.
  unfold BucketArray_Insert_log, BucketArray_GetIndex.
  set (arr := array_ this). set (arr_index := GetIndex arr p.1).
  intros Hrun Hidx.
  destruct (Insert_scan_spec (length arr) arr arr_index) as (Hr & Hbefore & Hat);
    [lia|done|].
  set (e0 := Insert_scan (length arr) arr arr_index) in *.
  case_decide as Hfull.
  { injection Hrun as <- <- <- <-. split_and!; done. }
  destruct (Insert_while (S e0) arr_index arr e0 true [])
    as [[[arr1 e1] sw1] log1] eqn:Hwhile.
  eapply (Insert_while_spec arr) in Hwhile; [|lia| |done].
  2:{ unfold displaced. split_and!; [done|done|done|lia|lia|done|apply Hat; lia]. }
  destruct Hwhile as (Hlog & (Hlen & Hpl & Hperm & Hrange & Hocc & Hfree) & Hsw).
  destruct sw1; injection Hrun as <- <- <- <-; simpl.
  - specialize (Hsw eq_refl).
    assert (arr1 !! e1 = Some (arr1 !!! e1)) as Hle
      by (apply list_lookup_lookup_total_lt; lia).
    rewrite Bucket_Set_of. split_and!.
    + by rewrite length_insert.
    + intros Hpl0. apply placed_insert; [auto|]. intros _. simpl.
      apply (in_window_length arr); [done|]. unfold in_window. fold arr_index. lia.
    + done.
    + rewrite <- Hperm. by apply (contents_insert_fill arr1 e1 (arr1 !!! e1)).
    + done.
    + exists e1. split; [done|]. apply list_lookup_insert_eq. lia.
  - split_and!; done.
Qed.

(** ** [Find] and [Erase] on the table *)

Lemma Bucket_HasKey_lookup arr j key :
  Bucket_HasKey (arr !!! j) key = true →
  ∃ bucket, arr !! j = Some bucket ∧ is_occupied_ bucket = true ∧ (pair_ bucket).1 = key.
Proof.
  rewrite list_lookup_total_alt. destruct (arr !! j) as [bucket|]; simpl; [|done].
  unfold Bucket_HasKey, Bucket_IsOccupied. intros [Ho Hk]%andb_prop.
  apply bool_decide_eq_true in Hk. eauto.
Qed.

Lemma Bucket_HasKey_true arr j bucket :
  arr !! j = Some bucket → is_occupied_ bucket = true →
  Bucket_HasKey (arr !!! j) (pair_ bucket).1 = true.
Proof.
  intros Hj Ho. rewrite (list_lookup_total_correct _ _ _ Hj).
  unfold Bucket_HasKey, Bucket_IsOccupied. rewrite Ho. simpl.
  by apply bool_decide_eq_true.
Qed.

Lemma Find_loop_Some n arr key i j :
  (Find_loop n arr key i).1 = Some j →
  i ≤ j < i + n ∧ Bucket_HasKey (arr !!! j) key = true.
Proof.
  revert i. induction n as [|n IH]; intros i; cbn [Find_loop]; [done|].
  destruct (Bucket_HasKey (arr !!! i) key) eqn:Hk; simpl.
  - intros [= <-]. split; [lia|done].
  - destruct (Find_loop n arr key (S i)) as [r read] eqn:Hrec. simpl.
    intros ->. specialize (IH (S i)). rewrite Hrec in IH.
    destruct (IH eq_refl). split; [lia|done].
Qed.

Lemma Find_loop_None n arr key i :
  (Find_loop n arr key i).1 = None →
  ∀ j, i ≤ j < i + n → Bucket_HasKey (arr !!! j) key = false.
Proof.
  revert i. induction n as [|n IH]; intros i; cbn [Find_loop]; [intros; lia|].
  destruct (Bucket_HasKey (arr !!! i) key) eqn:Hk; simpl; [done|].
  destruct (Find_loop n arr key (S i)) as [r read] eqn:Hrec. simpl.
  intros -> j Hj. destruct (decide (j = i)) as [->|]; [done|].
  specialize (IH (S i)). rewrite Hrec in IH. apply IH; [done|lia].
Qed.

Lemma Find_loop_read n arr key i q :
  q ∈ (Find_loop n arr key i).2 → i ≤ q < i + n.
Proof.
  revert i. induction n as [|n IH]; intros i; cbn [Find_loop].
  - by intros ?%not_elem_of_nil.
  - destruct (Bucket_HasKey (arr !!! i) key); simpl.
    + intros ->%list_elem_of_singleton. lia.
    + destruct (Find_loop n arr key (S i)) as [r read] eqn:Hrec. simpl.
      intros [->|Hq]%elem_of_cons; [lia|].
      specialize (IH (S i)). rewrite Hrec in IH. apply IH in Hq. lia.
Qed.

Lemma BucketArray_Find_found (this : BucketArray) key :
  BucketArray_Find this key ≠ BucketArray_End this →
  ∃ bucket, array_ this !! BucketArray_Find this key = Some bucket ∧
    is_occupied_ bucket = true ∧ (pair_ bucket).1 = key.
Proof.
  unfold BucketArray_Find, BucketArray_Begin.
  destruct (Find_loop NEXT (array_ this) key (BucketArray_GetIndex this key)).1
    as [j|] eqn:Hloop; [|done].
  intros _. apply Find_loop_Some in Hloop as [_ Hk]. simpl.
  by apply Bucket_HasKey_lookup.
Qed.

Lemma BucketArray_Find_absent (this : BucketArray) key :
  placed (array_ this) →
  BucketArray_Find this key = BucketArray_End this →
  key ∉ (contents (array_ this)).*1.
Proof.
  unfold BucketArray_Find, BucketArray_Begin, BucketArray_End.
  intros Hpl Hfind Hin.
  apply list_elem_of_fmap in Hin as ([k v] & -> & Hin). cbn [fst] in Hfind.
  apply elem_of_contents in Hin as (j & bucket & Hj & Ho & Hp).
  pose proof (Hpl j bucket Hj Ho) as Hw. rewrite Hp in Hw. simpl in Hw.
  pose proof (Bucket_HasKey_true _ _ _ Hj Ho) as Hk. rewrite Hp in Hk. simpl in Hk.
  destruct (Find_loop NEXT (array_ this) k (BucketArray_GetIndex this k)).1
    as [j'|] eqn:Hloop.
  - apply Find_loop_Some in Hloop as [_ Hk'].
    apply Bucket_HasKey_lookup in Hk' as (? & ?%lookup_lt_Some & _). simpl in *. lia.
  - eapply Find_loop_None in Hloop; [|apply Hw]. congruence.
Qed.

Lemma BucketArray_Erase_found (this : BucketArray) key b' :
  BucketArray_Erase this key = (b', true) →
  ∃ value,
    contents (array_ this) ≡ₚ (key, value) :: contents (array_ b') ∧
    length (array_ b') = length (array_ this) ∧
    (placed (array_ this) → placed (array_ b')) ∧
    pairs_count_ b' = pairs_count_ this - 1.
Proof.
  unfold BucketArray_Erase. case_decide as Hfound; [|done].
  intros [= <-]. simpl.
  destruct (BucketArray_Find_found this key Hfound) as (bucket & Hj & Ho & Hk).
  exists (pair_ bucket).2. split_and!.
  - replace (key, (pair_ bucket).2) with (pair_ bucket)
      by (rewrite <- Hk; by destruct (pair_ bucket)).
    by apply (contents_insert_free _ _ bucket).
  - by rewrite length_insert.
  - intros Hpl. by apply placed_insert.
  - done.
Qed.

Lemma BucketArray_Erase_absent (this : BucketArray) key b' :
  BucketArray_Erase this key = (b', false) →
  b' = this ∧ BucketArray_Find this key = BucketArray_End this.
Proof.
  unfold BucketArray_Erase. case_decide as Hfound; [done|].
  intros [= <-]. split; [done|]. by destruct (decide (BucketArray_Find this key = BucketArray_End this)).
Qed.

(** ** The overflow store *)

Lemma list_scan_Some (l : list Bucket) key i0 iter :
  list_scan l key i0 = Some iter →
  ∃ bucket, i0 ≤ iter ∧ l !! (iter - i0) = Some bucket ∧ (pair_ bucket).1 = key.
Proof.
  revert i0. induction l as [|bucket l IH]; intros i0; cbn [list_scan]; [done|].
  case_bool_decide as Hk.
  - intros [= <-]. exists bucket. rewrite Nat.sub_diag. done.
  - intros (b & Hle & Hl & Hb)%IH. exists b. split_and!; [lia| |done].
    replace (iter - i0) with (S (iter - S i0)) by lia. done.
Qed.

Lemma list_scan_None (l : list Bucket) key i0 :
  list_scan l key i0 = None → key ∉ (pair_ <$> l).*1.
Proof.
  revert i0. induction l as [|bucket l IH]; intros i0; cbn [list_scan].
  - intros _. apply not_elem_of_nil.
  - case_bool_decide as Hk; [done|]. intros Hrec%IH.
    rewrite !fmap_cons. apply not_elem_of_cons. done.
Qed.

(** ** Iteration *)

Lemma FirstOccupied_from_spec range arr i :
  drop i arr = range → i ≤ length arr →
  i ≤ FirstOccupied_from range i ≤ length arr ∧
  contents (drop (FirstOccupied_from range i) arr) = contents range ∧
  (FirstOccupied_from range i < length arr →
   is_occupied_ (arr !!! FirstOccupied_from range i) = true).
Proof.
  revert i. induction range as [|bucket range IH]; intros i Hdrop Hi; cbn [FirstOccupied_from].
  - assert (length arr ≤ i) as Hge.
    { apply (f_equal length) in Hdrop. rewrite length_drop in Hdrop. simpl in Hdrop. lia. }
    rewrite Hdrop. split_and!; [lia|lia|done|lia].
  - assert (arr !! i = Some bucket) as Hl.
    { rewrite <- (Nat.add_0_r i), <- lookup_drop, Hdrop. done. }
    pose proof (lookup_lt_Some _ _ _ Hl) as Hlt.
    unfold Bucket_IsOccupied. destruct (is_occupied_ bucket) eqn:Ho.
    + rewrite Hdrop. split_and!; [lia|lia|done|].
      intros _. by rewrite (list_lookup_total_correct _ _ _ Hl).
    + destruct (IH (S i)) as (Hr & Hc & Hocc).
      { rewrite (drop_S _ _ _ Hl) in Hdrop. by injection Hdrop. }
      { lia. }
      split_and!; [lia|lia| |done].
      rewrite Hc, contents_cons. unfold bucket_pairs. by rewrite Ho.
Qed.

Lemma incr_from_FirstOccupied range i :
  incr_from range i = FirstOccupied_from range (S i).
Proof.
  revert i. induction range as [|bucket range IH]; intros i; simpl; [done|].
  by rewrite IH.
Qed.

Lemma Reconstruct_loop_list fuel (this : HashMap) j tmp_map tmp_list :
  j ≤ length (list_ this) → length (list_ this) - j < fuel →
  Reconstruct_loop fuel this
    (mkRawIterator (BucketArray_End (b_array_ this)) (BucketArray_End (b_array_ this))
       j (length (list_ this))) tmp_map tmp_list
  = foldl reinsert (tmp_map, tmp_list) (pair_ <$> drop j (list_ this)).
Proof.
  revert j tmp_map tmp_list. induction fuel as [|fuel IH]; intros j tmp_map tmp_list Hj Hfuel;
    [lia|].
  cbn [Reconstruct_loop]. unfold RawIterator_eq, HashMap_end. cbn [b_array_iter_ list_iter_].
  rewrite bool_decide_eq_true_2 by done. cbn [andb].
  case_bool_decide as Hend; cbn [negb].
  - subst j. by rewrite drop_all.
  - assert (j < length (list_ this)) as Hlt by lia.
    pose proof (list_lookup_lookup_total_lt _ _ Hlt) as Hl.
    rewrite (drop_S _ _ _ Hl), fmap_cons. cbn [foldl].
    unfold RawIterator_ref, RawIterator_incr. cbn [b_array_iter_ b_array_end_ list_iter_ list_end_].
    rewrite !decide_False by (intros ?; congruence).
    cbn [HashMap_deref]. unfold Bucket_GetRef, reinsert at 2. cbn [fst snd].
    destruct (BucketArray_Insert tmp_map (pair_ (list_ this !!! j))) as [t' [ok r]].
    apply IH; lia.
Qed.

Lemma Reconstruct_loop_table fuel (this : HashMap) i tmp_map tmp_list :
  i ≤ length (array_ (b_array_ this)) →
  (i < length (array_ (b_array_ this)) → is_occupied_ (array_ (b_array_ this) !!! i) = true) →
  length (array_ (b_array_ this)) - i + length (list_ this) < fuel →
  Reconstruct_loop fuel this
    (mkRawIterator i (BucketArray_End (b_array_ this)) 0 (length (list_ this)))
    tmp_map tmp_list
  = foldl reinsert (tmp_map, tmp_list)
      (contents (drop i (array_ (b_array_ this))) ++ (pair_ <$> list_ this)).
Proof.
  set (arr := array_ (b_array_ this)).
  revert i tmp_map tmp_list.
  induction fuel as [|fuel IH]; intros i tmp_map tmp_list Hi Hocc Hfuel; [lia|].
  destruct (decide (i = length arr)) as [->|Hne].
  - rewrite drop_all. cbn [contents app]. change ([] ≫= bucket_pairs) with (@nil PairType).
    cbn [app].
    exact (Reconstruct_loop_list (S fuel) this 0 tmp_map tmp_list ltac:(lia) ltac:(lia)).
  - assert (i < length arr) as Hlt by lia. specialize (Hocc Hlt).
    pose proof (list_lookup_lookup_total_lt _ _ Hlt) as Hl.
    cbn [Reconstruct_loop]. unfold RawIterator_eq, HashMap_end, BucketArray_End.
    cbn [b_array_iter_ list_iter_]. fold arr.
    rewrite (bool_decide_eq_false_2 (i = length arr)) by done. cbn [andb negb].
    unfold RawIterator_ref, RawIterator_incr, BucketArray_End.
    cbn [b_array_iter_ b_array_end_ list_iter_ list_end_]. fold arr.
    rewrite !decide_True by done.
    cbn [HashMap_deref]. unfold Bucket_GetRef. fold arr.
    rewrite (drop_S _ _ _ Hl), contents_cons. unfold bucket_pairs at 1.
    rewrite Hocc. cbn [app foldl]. unfold reinsert at 2. cbn [fst snd].
    destruct (BucketArray_Insert tmp_map (pair_ (arr !!! i))) as [t' [ok r]].
    rewrite incr_from_FirstOccupied.
    destruct (FirstOccupied_from_spec (drop (S i) arr) arr (S i)) as (Hr & Hc & Ho);
      [done|lia|].
    rewrite <- Hc. apply IH; [lia|done|lia].
Qed.

Lemma HashMap_begin_loop fuel (this : HashMap) tmp_map tmp_list :
  length (array_ (b_array_ this)) + length (list_ this) < fuel →
  Reconstruct_loop fuel this (HashMap_begin this) tmp_map tmp_list
  = foldl reinsert (tmp_map, tmp_list) (elements this).
Proof.
  intros Hfuel. unfold HashMap_begin, BucketArray_FirstOccupiedBucket, BucketArray_Begin.
  destruct (FirstOccupied_from_spec (drop 0 (array_ (b_array_ this)))
              (array_ (b_array_ this)) 0) as (Hr & Hc & Ho); [done|lia|].
  rewrite Reconstruct_loop_table; [|lia|done|lia].
  unfold elements. rewrite Hc, drop_0. done.
Qed.

(** ** The table insert, on a table that satisfies its invariant *)

Lemma capacity_new n : capacity (BucketArray_new n) = n.
Proof. unfold capacity, BucketArray_new. simpl. rewrite length_replicate. unfold NEXT. lia. Qed.

Lemma table_ok_new n : 0 < n → table_ok (BucketArray_new n).
Proof.
  intros Hn. unfold table_ok, BucketArray_new. simpl. split_and!.
  - rewrite length_replicate. lia.
  - apply placed_replicate.
  - by rewrite contents_replicate.
Qed.

Lemma BucketArray_Insert_ok (this : BucketArray) (p : PairType) b' success ref :
  BucketArray_Insert this p = (b', (success, ref)) →
  table_ok this →
  table_ok b' ∧ length (array_ b') = length (array_ this) ∧
  (if success then
     contents (array_ b') ≡ₚ p :: contents (array_ this) ∧
     ∃ e, ref = RefArray e ∧ array_ b' !! e = Some (Bucket_of p)
   else contents (array_ b') ≡ₚ contents (array_ this) ∧ ref = RefFake).
Proof.
  unfold BucketArray_Insert.
  destruct (BucketArray_Insert_log this p) as [[b1 [s1 r1]] log] eqn:Hlog.
  simpl. intros [= -> -> ->] (Hlen & Hpl & Hcount).
  apply BucketArray_Insert_log_spec in Hlog.
  2:{ pose proof (GetIndex_lt (array_ this) p.1 Hlen). lia. }
  destruct Hlog as (Hlen' & Hpl' & _ & Hres).
  split; [|split; [done|]].
  - unfold table_ok. rewrite Hlen'. split_and!; [done|auto|].
    destruct success.
    + destruct Hres as (Hperm & -> & _). rewrite Hperm. simpl. by rewrite Hcount.
    + destruct Hres as (Hperm & -> & _). by rewrite Hperm.
  - destruct success; destruct Hres as (? & _ & ?); split; done.
Qed.

Lemma reinsert_spec (tmp : BucketArray * list Bucket) (p : PairType) :
  table_ok tmp.1 → Forall (λ bucket, is_occupied_ bucket = true) tmp.2 →
  table_ok (reinsert tmp p).1 ∧
  length (array_ (reinsert tmp p).1) = length (array_ tmp.1) ∧
  Forall (λ bucket, is_occupied_ bucket = true) (reinsert tmp p).2 ∧
  contents (array_ (reinsert tmp p).1) ++ (pair_ <$> (reinsert tmp p).2)
  ≡ₚ p :: contents (array_ tmp.1) ++ (pair_ <$> tmp.2).
Proof.
  intros Hok Hocc. unfold reinsert.
  destruct (BucketArray_Insert tmp.1 p) as [t' [success r]] eqn:Hins.
  apply BucketArray_Insert_ok in Hins as (Hok' & Hlen & Hres); [|done].
  cbn [fst snd]. destruct success; cbn [negb].
  - destruct Hres as [Hperm _]. split_and!; [done|done|done|]. by rewrite Hperm.
  - destruct Hres as [Hperm _]. split_and!; [done|done| |].
    + apply Forall_app. split; [done|]. by apply Forall_singleton.
    + rewrite Hperm, fmap_app. simpl.
      rewrite (Permutation_app_comm (pair_ <$> tmp.2)). simpl.
      by rewrite <- Permutation_middle.
Qed.

Lemma foldl_reinsert_spec (pairs : list PairType) (tmp : BucketArray * list Bucket) :
  table_ok tmp.1 → Forall (λ bucket, is_occupied_ bucket = true) tmp.2 →
  table_ok (foldl reinsert tmp pairs).1 ∧
  length (array_ (foldl reinsert tmp pairs).1) = length (array_ tmp.1) ∧
  Forall (λ bucket, is_occupied_ bucket = true) (foldl reinsert tmp pairs).2 ∧
  contents (array_ (foldl reinsert tmp pairs).1) ++ (pair_ <$> (foldl reinsert tmp pairs).2)
  ≡ₚ pairs ++ contents (array_ tmp.1) ++ (pair_ <$> tmp.2).
Proof.
  revert tmp. induction pairs as [|p pairs IH]; intros tmp Hok Hocc; cbn [foldl].
  - done.
  - destruct (reinsert_spec tmp p Hok Hocc) as (Hok1 & Hlen1 & Hocc1 & Hperm1).
    destruct (IH (reinsert tmp p) Hok1 Hocc1) as (Hok2 & Hlen2 & Hocc2 & Hperm2).
    split_and!; [done|congruence|done|].
    rewrite Hperm2, Hperm1. simpl. by rewrite <- Permutation_middle.
Qed.

(** ** [Reconstruct] *)

Lemma fmap_Bucket_copy (l : list Bucket) :
  Forall (λ bucket, is_occupied_ bucket = true) l → Bucket_copy <$> l = l.
Proof.
  induction 1 as [|bucket l Hb _ IH]; [done|].
  by rewrite fmap_cons, IH, Bucket_copy_occupied.
Qed.

Lemma wf_elements_perm (this that : HashMap) :
  elements that ≡ₚ elements this → NoDup (elements this).*1 → NoDup (elements that).*1.
Proof. intros Hperm. by rewrite Hperm. Qed.

Lemma HashMap_Reconstruct_spec (this : HashMap) (change_size : bool) :
  table_ok (b_array_ (HashMap_Reconstruct this change_size false)) ∧
  capacity (b_array_ (HashMap_Reconstruct this change_size false))
  = (if change_size then
       if Qltb (BucketArray_LoadFactor (b_array_ this)) MIN_LOAD_FACTOR
       then capacity (b_array_ this) / 2 else capacity (b_array_ this) * 2
     else capacity (b_array_ this)) `max` INITIAL_SIZE ∧
  Forall (λ bucket, is_occupied_ bucket = true)
    (list_ (HashMap_Reconstruct this change_size false)) ∧
  elements (HashMap_Reconstruct this change_size false) ≡ₚ elements this.
Proof.
  unfold HashMap_Reconstruct. cbn [negb].
  set (new_size := (if change_size then _ else _) `max` INITIAL_SIZE).
  assert (0 < new_size) as Hpos by (unfold new_size, INITIAL_SIZE; lia).
  rewrite HashMap_begin_loop by (unfold BucketArray_ArraySize; lia).
  destruct (foldl_reinsert_spec (elements this) (BucketArray_new new_size, []))
    as (Hok & Hlen & Hocc & Hperm); [by apply table_ok_new|done|].
  destruct (foldl reinsert (BucketArray_new new_size, []) (elements this))
    as [tmp_map tmp_list].
  cbn [fst snd] in *. cbn [b_array_ list_].
  destruct Hok as (Hnext & Hpl & Hcount).
  rewrite fmap_Bucket_copy by done.
  split_and!.
  - unfold table_ok, BucketArray_assign. cbn [array_ pairs_count_].
    rewrite length_fmap, contents_copy. split_and!; [done|by apply placed_copy|done].
  - unfold capacity at 1, BucketArray_assign. cbn [array_].
    rewrite length_fmap, Hlen. apply (capacity_new new_size).
  - done.
  - unfold elements, BucketArray_assign. cbn [b_array_ list_ array_].
    rewrite contents_copy, Hperm. simpl. rewrite contents_replicate. simpl.
    by rewrite app_nil_r.
Qed.

Lemma HashMap_Reconstruct_wf (this : HashMap) (change_size : bool) :
  NoDup (elements this).*1 → wf (HashMap_Reconstruct this change_size false).
Proof.
  intros Hnd.
  destruct (HashMap_Reconstruct_spec this change_size) as ((Hnext & Hpl & Hcount) & Hcap & Hocc & Hperm).
  split; [|done|done|done|by rewrite Hperm].
  rewrite Hcap. lia.
Qed.

Lemma HashMap_clear_spec (this : HashMap) :
  array_ (b_array_ (HashMap_clear this))
  = replicate (capacity (b_array_ this) `max` INITIAL_SIZE + NEXT - 1) Bucket_default ∧
  pairs_count_ (b_array_ (HashMap_clear this)) = 0 ∧
  list_ (HashMap_clear this) = [].
Proof.
  unfold HashMap_clear, HashMap_Reconstruct, BucketArray_assign, BucketArray_new.
  cbn [negb b_array_ list_ array_ pairs_count_]. split_and!; [|done|done].
  rewrite fmap_replicate. done.
Qed.

Lemma HashMap_clear_wf (this : HashMap) : wf (HashMap_clear this).
Proof.
  destruct (HashMap_clear_spec this) as (Harr & Hcount & Hlist).
  split.
  - unfold capacity. rewrite Harr, length_replicate. unfold NEXT, INITIAL_SIZE. lia.
  - rewrite Harr. apply placed_replicate.
  - by rewrite Hcount, Harr, contents_replicate.
  - by rewrite Hlist.
  - unfold elements. rewrite Harr, Hlist, contents_replicate. constructor.
Qed.

Lemma wf_new : wf HashMap_new.
Proof.
  split; unfold HashMap_new; cbn [b_array_ list_].
  - by rewrite capacity_new.
  - apply placed_replicate.
  - unfold BucketArray_new. cbn [array_ pairs_count_]. by rewrite contents_replicate.
  - done.
  - unfold elements, BucketArray_new. cbn [b_array_ list_ array_].
    rewrite contents_replicate. constructor.
Qed.

Lemma wf_table_ok (this : HashMap) : wf this → table_ok (b_array_ this).
Proof.
  intros [Hcap Hpl Hcount _ _]. split_and!; [|done|done].
  unfold capacity, INITIAL_SIZE in Hcap. lia.
Qed.

Lemma after_load_check_spec (this : HashMap) :
  wf this → wf (after_load_check this) ∧ elements (after_load_check this) ≡ₚ elements this.
Proof.
  intros Hwf. unfold after_load_check.
  destruct (_ || _); [|done].
  split; [apply HashMap_Reconstruct_wf, Hwf|apply HashMap_Reconstruct_spec].
Qed.

(** ** [ForceInsert], [insert], [operator[]] *)

Lemma HashMap_ForceInsert_eq (this : HashMap) (p : PairType) :
  HashMap_ForceInsert this p
  = let this := after_load_check this in
    let '(b_array', (success, ref)) := BucketArray_Insert (b_array_ this) p in
    if negb success then
      ({| b_array_ := b_array'; list_ := list_ this ++ [Bucket_of p] |},
       RefList (length (list_ this)))
    else ({| b_array_ := b_array'; list_ := list_ this |}, ref).
Proof. done. Qed.

Lemma HashMap_ForceInsert_spec (this : HashMap) (p : PairType) :
  wf this → p.1 ∉ (elements this).*1 →
  wf (HashMap_ForceInsert this p).1 ∧
  elements (HashMap_ForceInsert this p).1 ≡ₚ p :: elements this ∧
  ref_holds (HashMap_ForceInsert this p).1 (HashMap_ForceInsert this p).2 p.1 ∧
  HashMap_deref (HashMap_ForceInsert this p).1 (HashMap_ForceInsert this p).2 = p.
Proof.
  intros Hwf Hfresh. rewrite HashMap_ForceInsert_eq. cbv zeta.
  destruct (after_load_check_spec this Hwf) as [Hwf1 Hperm1].
  set (this1 := after_load_check this) in *.
  destruct (BucketArray_Insert (b_array_ this1) p) as [b' [success ref]] eqn:Hins.
  apply BucketArray_Insert_ok in Hins as ((Hnext & Hpl & Hcount) & Hlen & Hres);
    [|by apply wf_table_ok].
  destruct Hwf1 as [Hcap1 Hpl1 Hcount1 Hlist1 Hnd1].
  destruct success; cbn [negb fst snd].
  - destruct Hres as (Hperm & e & -> & He).
    assert (elements {| b_array_ := b'; list_ := list_ this1 |} ≡ₚ p :: elements this) as Hel.
    { unfold elements. cbn [b_array_ list_]. rewrite Hperm. simpl.
      by rewrite <- Hperm1. }
    split_and!; [|done| |].
    + split; cbn [b_array_ list_]; [|done|done|done|].
      * unfold capacity in *. by rewrite Hlen.
      * rewrite Hel, fmap_cons. apply NoDup_cons. split; [done|].
        rewrite <- Hperm1. done.
    + simpl. exists (Bucket_of p). done.
    + simpl. unfold Bucket_GetRef. by rewrite (list_lookup_total_correct _ _ _ He).
  - destruct Hres as (Hperm & ->).
    assert (elements {| b_array_ := b'; list_ := list_ this1 ++ [Bucket_of p] |}
            ≡ₚ p :: elements this) as Hel.
    { unfold elements. cbn [b_array_ list_]. rewrite Hperm, fmap_app. simpl.
      rewrite <- Hperm1. unfold elements.
      rewrite app_assoc. by rewrite <- Permutation_cons_append. }
    split_and!; [|done| |].
    + split; cbn [b_array_ list_]; [|done|done| |].
      * unfold capacity in *. by rewrite Hlen.
      * apply Forall_app. split; [done|]. by apply Forall_singleton.
      * rewrite Hel, fmap_cons. apply NoDup_cons. split; [done|].
        rewrite <- Hperm1. done.
    + simpl. exists (Bucket_of p). split; [|done].
      by rewrite lookup_app_r, Nat.sub_diag.
    + simpl. unfold Bucket_GetRef.
      rewrite (list_lookup_total_correct _ _ (Bucket_of p)); [done|].
      by rewrite lookup_app_r, Nat.sub_diag.
Qed.

(** ** Association lists with distinct keys *)

Lemma first_value_Some (l : list PairType) key value :
  first_value l key = Some value → (key, value) ∈ l.
Proof.
  induction l as [|[k v] l IH]; cbn [first_value fst snd]; [done|].
  case_bool_decide as Hk.
  - intros [= <-]. subst k. apply list_elem_of_here.
  - intros ?%IH. by apply list_elem_of_further.
Qed.

Lemma first_value_None (l : list PairType) key :
  first_value l key = None ↔ key ∉ l.*1.
Proof.
  induction l as [|[k v] l IH]; cbn [first_value fst snd].
  - split; [intros _; apply not_elem_of_nil|done].
  - rewrite fmap_cons, not_elem_of_cons. cbn [fst]. case_bool_decide as Hk.
    + split; [done|]. intros [? _]. congruence.
    + rewrite IH. split; [intros ?; split; [congruence|done]|by intros [_ ?]].
Qed.

Lemma first_value_elem (l : list PairType) key value :
  NoDup l.*1 → (key, value) ∈ l → first_value l key = Some value.
Proof.
  induction l as [|[k v] l IH]; cbn [first_value fst snd].
  - by intros _ ?%not_elem_of_nil.
  - rewrite fmap_cons. cbn [fst]. intros [Hk Hnd]%NoDup_cons [Heq|Hin]%elem_of_cons.
    + injection Heq as -> ->. by rewrite bool_decide_eq_true_2.
    + case_bool_decide as Hkk; [|by apply IH].
      subst k. exfalso. apply Hk. apply list_elem_of_fmap. by exists (key, value).
Qed.

Lemma first_value_perm (l1 l2 : list PairType) key :
  NoDup l1.*1 → l1 ≡ₚ l2 → first_value l1 key = first_value l2 key.
Proof.
  intros Hnd Hperm.
  assert (NoDup l2.*1) as Hnd2 by (by rewrite <- Hperm).
  destruct (first_value l1 key) as [v|] eqn:H1.
  - symmetry. apply first_value_elem; [done|]. rewrite <- Hperm. by apply first_value_Some.
  - symmetry. apply first_value_None. rewrite <- Hperm. by apply first_value_None.
Qed.

Lemma first_value_app (l1 l2 : list PairType) key :
  first_value (l1 ++ l2) key
  = match first_value l1 key with Some v => Some v | None => first_value l2 key end.
Proof.
  induction l1 as [|[k v] l1 IH]; cbn [first_value app fst snd]; [done|].
  by case_bool_decide.
Qed.

(** ** [find] *)

Lemma ref_holds_elem (this : HashMap) ref key :
  ref_holds this ref key →
  ∃ value, HashMap_deref this ref = (key, value) ∧ (key, value) ∈ elements this.
Proof.
  destruct ref as [|i|i]; cbn [ref_holds HashMap_deref]; [done| |].
  - intros (bucket & Hi & Ho & Hk). exists (pair_ bucket).2.
    unfold Bucket_GetRef. rewrite (list_lookup_total_correct _ _ _ Hi).
    assert (pair_ bucket = (key, (pair_ bucket).2)) as Hp
      by (rewrite <- Hk; by destruct (pair_ bucket)).
    split; [done|]. unfold elements. apply elem_of_app. left.
    apply elem_of_contents. exists i, bucket. by rewrite <- Hp.
  - intros (bucket & Hi & Hk). exists (pair_ bucket).2.
    unfold Bucket_GetRef. rewrite (list_lookup_total_correct _ _ _ Hi).
    assert (pair_ bucket = (key, (pair_ bucket).2)) as Hp
      by (rewrite <- Hk; by destruct (pair_ bucket)).
    split; [done|]. unfold elements. apply elem_of_app. right.
    rewrite <- Hp. apply list_elem_of_fmap. exists bucket. split; [done|].
    by eapply list_elem_of_lookup_2.
Qed.

Lemma HashMap_find_spec (this : HashMap) key :
  placed (array_ (b_array_ this)) →
  (RawIterator_eq (HashMap_find this key) (HashMap_end this) = true ∧
   key ∉ (elements this).*1) ∨
  (RawIterator_eq (HashMap_find this key) (HashMap_end this) = false ∧
   ref_holds this (RawIterator_ref (HashMap_find this key)) key).
Proof.
  intros Hpl. unfold HashMap_find, HashMap_end, RawIterator_eq, RawIterator_ref.
  case_decide as Htable; cbn [b_array_iter_ b_array_end_ list_iter_ list_end_].
  - right. rewrite bool_decide_eq_false_2 by done. split; [done|].
    rewrite decide_True by done. by apply BucketArray_Find_found.
  - assert (BucketArray_Find (b_array_ this) key = BucketArray_End (b_array_ this)) as Hend
      by (by destruct (decide (BucketArray_Find (b_array_ this) key
                               = BucketArray_End (b_array_ this)))).
    pose proof (BucketArray_Find_absent _ _ Hpl Hend) as Habs.
    destruct (list_scan (list_ this) key 0) as [iter|] eqn:Hscan;
      cbn [b_array_iter_ b_array_end_ list_iter_ list_end_].
    + right. apply list_scan_Some in Hscan as (bucket & _ & Hl & Hk).
      rewrite Nat.sub_0_r in Hl. pose proof (lookup_lt_Some _ _ _ Hl).
      rewrite bool_decide_eq_true_2 by done.
      rewrite (bool_decide_eq_false_2 (iter = _)) by lia. split; [done|].
      rewrite decide_False by (intros ?; congruence). simpl. eauto.
    + left. rewrite !bool_decide_eq_true_2 by done. split; [done|].
      apply list_scan_None in Hscan. unfold elements.
      rewrite fmap_app, elem_of_app. tauto.
Qed.

Lemma found_first_value (this : HashMap) key :
  wf this → found this key = first_value (elements this) key.
Proof.
  intros Hwf. unfold found.
  destruct (HashMap_find_spec this key (wf_placed _ Hwf)) as [[-> Habs]|[-> Href]].
  - symmetry. by apply first_value_None.
  - apply ref_holds_elem in Href as (value & -> & Hin). symmetry.
    apply first_value_elem; [apply Hwf|done].
Qed.

Lemma found_None (this : HashMap) key :
  found this key = None ↔ RawIterator_eq (HashMap_find this key) (HashMap_end this) = true.
Proof. unfold found. by destruct (RawIterator_eq _ _). Qed.

(** ** The public operations keep the invariant *)

Lemma HashMap_insert_spec (this : HashMap) (p : PairType) :
  wf this →
  wf (HashMap_insert this p) ∧
  match found this p.1 with
  | Some _ => HashMap_insert this p = this
  | None => elements (HashMap_insert this p) ≡ₚ p :: elements this
  end.
Proof.
  intros Hwf. pose proof (found_first_value this p.1 Hwf) as Hfv.
  unfold HashMap_insert. unfold found in *.
  destruct (RawIterator_eq _ _); [|done].
  symmetry in Hfv. apply first_value_None in Hfv.
  destruct (HashMap_ForceInsert_spec this p Hwf Hfv) as (? & ? & _). done.
Qed.

Lemma HashMap_erase_spec (this : HashMap) key :
  wf this →
  wf (HashMap_erase this key) ∧
  match found this key with
  | Some value => elements this ≡ₚ (key, value) :: elements (HashMap_erase this key)
  | None => HashMap_erase this key = this
  end.
Proof.
  intros Hwf. pose proof (found_first_value this key Hwf) as Hfv.
  destruct Hwf as [Hcap Hpl Hcount Hlist Hnd].
  unfold HashMap_erase.
  destruct (BucketArray_Erase (b_array_ this) key) as [b' erased] eqn:Herase.
  destruct erased; cbn [negb].
  - apply BucketArray_Erase_found in Herase as (value & Hperm & Hlen & Hpl' & Hcount').
    assert (elements this ≡ₚ (key, value) :: elements {| b_array_ := b'; list_ := list_ this |})
      as Hel.
    { unfold elements. cbn [b_array_ list_]. by rewrite Hperm. }
    assert (NoDup (elements {| b_array_ := b'; list_ := list_ this |}).*1) as Hnd'.
    { rewrite Hel, fmap_cons in Hnd. by apply NoDup_cons in Hnd as [_ ?]. }
    split.
    + split; cbn [b_array_ list_]; [|auto| |done|done].
      * unfold capacity in *. by rewrite Hlen.
      * rewrite Hcount', Hcount, Hperm. simpl. lia.
    + rewrite Hfv, (first_value_elem _ key value); [done|done|].
      rewrite Hel. apply list_elem_of_here.
  - apply BucketArray_Erase_absent in Herase as [-> Hend].
    pose proof (BucketArray_Find_absent _ _ Hpl Hend) as Habs.
    destruct (list_scan (list_ this) key 0) as [it|] eqn:Hscan.
    + apply list_scan_Some in Hscan as (bucket & _ & Hl & Hk).
      rewrite Nat.sub_0_r in Hl.
      assert (pair_ bucket = (key, (pair_ bucket).2)) as Hp
        by (rewrite <- Hk; by destruct (pair_ bucket)).
      assert (elements this ≡ₚ (key, (pair_ bucket).2)
                :: elements {| b_array_ := b_array_ this; list_ := delete it (list_ this) |})
        as Hel.
      { unfold elements. cbn [b_array_ list_].
        rewrite (delete_Permutation (list_ this) it bucket Hl) at 1.
        rewrite fmap_cons, <- Hp. by rewrite <- Permutation_middle. }
      split.
      * split; cbn [b_array_ list_]; [done|done|done| |].
        -- rewrite delete_take_drop. apply Forall_app. split.
           ++ by apply Forall_take.
           ++ by apply Forall_drop.
        -- rewrite Hel, fmap_cons in Hnd. by apply NoDup_cons in Hnd as [_ ?].
      * rewrite Hfv, (first_value_elem _ key (pair_ bucket).2); [done|done|].
        rewrite Hel. apply list_elem_of_here.
    + apply list_scan_None in Hscan. split.
      * by destruct this.
      * assert (first_value (elements this) key = None) as Hnone.
        { apply first_value_None. unfold elements. rewrite fmap_app, elem_of_app. tauto. }
        rewrite Hfv, Hnone. by destruct this.
Qed.

Lemma HashMap_index_spec (this : HashMap) key :
  wf this →
  wf (HashMap_index this key).1 ∧
  ref_holds (HashMap_index this key).1 (HashMap_index this key).2 key ∧
  match found this key with
  | Some value =>
      (HashMap_index this key).1 = this ∧
      HashMap_deref this (HashMap_index this key).2 = (key, value)
  | None =>
      elements (HashMap_index this key).1 ≡ₚ (key, ValueType_default) :: elements this ∧
      HashMap_deref (HashMap_index this key).1 (HashMap_index this key).2
      = (key, ValueType_default)
  end.
Proof.
  intros Hwf. pose proof (found_first_value this key Hwf) as Hfv.
  unfold HashMap_index, found in *.
  destruct (HashMap_find_spec this key (wf_placed _ Hwf)) as [[Heq Habs]|[Heq Href]];
    rewrite Heq in *; cbv zeta.
  - destruct (HashMap_ForceInsert_spec this (key, ValueType_default) Hwf Habs)
      as (? & ? & ? & ?). done.
  - cbn [fst snd]. split_and!; [done|done|done|].
    apply ref_holds_elem in Href as (value & Hd & _). rewrite Hd. done.
Qed.

Lemma HashMap_assign_second_spec (this : HashMap) ref key value :
  wf this → ref_holds this ref key →
  wf (HashMap_assign_second this ref value) ∧
  ∃ old rest,
    elements this ≡ₚ (key, old) :: rest ∧
    elements (HashMap_assign_second this ref value) ≡ₚ (key, value) :: rest.
Proof.
  intros [Hcap Hpl Hcount Hlist Hnd].
  destruct ref as [|i|i]; cbn [ref_holds HashMap_assign_second]; [done| |].
  - intros ([[k old] o] & Hi & Ho & Hk). cbn [pair_ is_occupied_ fst] in Ho, Hk. subst k o.
    rewrite (list_lookup_total_correct _ _ _ Hi).
    unfold Bucket_set_second. cbn [pair_ is_occupied_ fst].
    set (bucket := {| pair_ := (key, old); is_occupied_ := true |}) in *.
    set (bucket' := {| pair_ := (key, value); is_occupied_ := true |}).
    set (arr := array_ (b_array_ this)) in *.
    set (rest := contents (<[i:=Bucket_Erase bucket]> arr)).
    assert (contents arr ≡ₚ (key, old) :: rest) as Hold.
    { by apply (contents_insert_free _ i bucket). }
    assert (contents (<[i:=bucket']> arr) ≡ₚ (key, value) :: rest) as Hnew.
    { apply (Permutation_cons_inv (a:=(key, old))).
      pose proof (contents_insert_keep arr i bucket bucket' Hi eq_refl eq_refl) as Hkeep.
      change (pair_ bucket) with (key, old) in Hkeep.
      change (pair_ bucket') with (key, value) in Hkeep.
      rewrite <- Hkeep, Hold. apply perm_swap. }
    split.
    + split; cbn [b_array_ list_ array_ pairs_count_].
      * unfold capacity in *. cbn [array_]. by rewrite length_insert.
      * apply placed_insert; [done|]. intros _. apply (Hpl i bucket Hi eq_refl).
      * rewrite Hnew, Hcount, Hold. done.
      * done.
      * unfold elements in *. cbn [b_array_ list_ array_]. fold arr in Hnd.
        rewrite Hnew. rewrite Hold in Hnd. done.
    + exists old, (rest ++ (pair_ <$> list_ this)).
      unfold elements. cbn [b_array_ list_ array_]. fold arr.
      rewrite Hnew, Hold. done.
  - intros ([[k old] o] & Hi & Hk). cbn [pair_ fst] in Hk. subst k.
    rewrite (list_lookup_total_correct _ _ _ Hi).
    unfold Bucket_set_second. cbn [pair_ is_occupied_ fst].
    set (bucket := {| pair_ := (key, old); is_occupied_ := o |}) in *.
    set (bucket' := {| pair_ := (key, value); is_occupied_ := o |}).
    pose proof (lookup_lt_Some _ _ _ Hi) as Hlt.
    set (rest := pair_ <$> delete i (list_ this)).
    assert (pair_ <$> list_ this ≡ₚ (key, old) :: rest) as Hold.
    { rewrite (delete_Permutation _ i bucket Hi) at 1. by rewrite fmap_cons. }
    assert (pair_ <$> <[i:=bucket']> (list_ this) ≡ₚ (key, value) :: rest) as Hnew.
    { rewrite (delete_Permutation (<[i:=bucket']> (list_ this)) i bucket') at 1
        by (by apply list_lookup_insert_eq).
      rewrite fmap_cons. cbn [pair_]. unfold rest.
      rewrite !delete_take_drop, take_insert_ge, drop_insert_lt by lia. done. }
    split.
    + split; cbn [b_array_ list_]; [done|done|done| |].
      * apply Forall_insert; [done|]. cbn [is_occupied_].
        by apply (Forall_lookup_1 _ _ _ _ Hlist Hi).
      * unfold elements in *. cbn [b_array_ list_].
        rewrite Hnew. rewrite Hold in Hnd.
        rewrite !fmap_app, !fmap_cons in *. done.
    + exists old, (contents (array_ (b_array_ this)) ++ rest).
      unfold elements. cbn [b_array_ list_].
      rewrite Hnew, Hold. by rewrite <- !Permutation_middle.
Qed.

Lemma HashMap_apply_wf (this : HashMap) op : wf this → wf (HashMap_apply this op).
Proof.
  intros Hwf. destruct op as [p|key|key|key value|]; cbn [HashMap_apply].
  - by apply HashMap_insert_spec.
  - by apply HashMap_erase_spec.
  - by apply HashMap_index_spec.
  - destruct (HashMap_index_spec this key Hwf) as (Hwf' & Href & _).
    destruct (HashMap_index this key) as [this' ref]. cbn [fst snd] in *.
    by eapply HashMap_assign_second_spec.
  - apply HashMap_clear_wf.
Qed.

Lemma reachable_wf (this : HashMap) : reachable this → wf this.
Proof.
  induction 1 as [|this op _ IH]; [apply wf_new|by apply HashMap_apply_wf].
Qed.

(** ** Rational load factors *)

Lemma Qltb_lt (x y : Q) : Qltb x y = true ↔ (x < y)%Q.
Proof.
  unfold Qltb. rewrite negb_true_iff, <- not_true_iff_false, Qle_bool_iff.
  split; [apply Qnot_le_lt|apply Qlt_not_le].
Qed.



(** ** More on the loops *)

Lemma Insert_scan_outside fuel arr e :
  length arr ≤ e → Insert_scan fuel arr e = e.
Proof. destruct fuel; simpl; [done|]. intros. by rewrite decide_False by lia. Qed.

Lemma list_scan_elem (l : list Bucket) key i0 :
  key ∈ (pair_ <$> l).*1 →
  ∃ iter, list_scan l key i0 = Some iter ∧ iter < i0 + length l.
Proof.
  intros Hin. destruct (list_scan l key i0) as [iter|] eqn:Hscan.
  - exists iter. split; [done|].
    apply list_scan_Some in Hscan as (bucket & Hle & Hl%lookup_lt_Some & _). lia.
  - by apply list_scan_None in Hscan.
Qed.

Lemma reachable_insert_keys (this : HashMap) (pairs : list PairType) :
  reachable this → reachable (foldl HashMap_insert this pairs).
Proof.
  revert this. induction pairs as [|p pairs IH]; intros this Hr; [done|].
  simpl. apply IH. apply (reachable_apply this (OpInsert p) Hr).
Qed.

Lemma found_insert (this : HashMap) (p : PairType) key :
  wf this →
  found (HashMap_insert this p) key = first_value (elements this ++ [p]) key.
Proof.
  intros Hwf. destruct (HashMap_insert_spec this p Hwf) as [Hwf' Hcase].
  rewrite first_value_app, <- (found_first_value this key Hwf).
  pose proof (found_first_value this p.1 Hwf) as Hp.
  destruct (found this p.1) as [v0|] eqn:Hfound.
  - rewrite Hcase. destruct (found this key) as [v|] eqn:Hk; [done|].
    cbn [first_value]. case_bool_decide; [congruence|done].
  - rewrite (found_first_value _ key Hwf').
    rewrite (first_value_perm _ _ key (wf_nodup _ Hwf') Hcase).
    cbn [first_value]. rewrite <- (found_first_value this key Hwf).
    case_bool_decide as Hk; [|by destruct (found this key)].
    subst key. by rewrite Hfound.
Qed.

(** ** The properties of the specification *)

(** C1. Placement invariant: in every state the map reaches, from its
    construction, by insert, erase, index access (with or without a write
    through the reference) and clear, an occupied bucket at physical index
    [j] that holds key [k] satisfies
    [ideal(k) <= j < ideal(k) + NEXT], with [ideal(k) = hash(k) mod capacity].
    Moreover, on any table that satisfies the invariant, every swap of the
    displacement insert moves an occupied bucket from an index inside the
    window of its key to a higher index that is still inside that window,
    and the table after the insert satisfies the invariant again. *)
Theorem placement_invariant :
  (∀ (this : HashMap) j bucket,
     reachable this →
     array_ (b_array_ this) !! j = Some bucket → is_occupied_ bucket = true →
     BucketArray_GetIndex (b_array_ this) (pair_ bucket).1 ≤ j
     < BucketArray_GetIndex (b_array_ this) (pair_ bucket).1 + NEXT) ∧
  (∀ (this : BucketArray) (p : PairType),
     0 < capacity this → placed (array_ this) →
     Forall (swap_in_window (array_ this)) (BucketArray_Insert_log this p).2 ∧
     placed (array_ (BucketArray_Insert this p).1)).
Proof.
  split.
  - intros this j bucket Hr Hj Ho.
    apply (wf_placed this (reachable_wf this Hr) j bucket Hj Ho).
  - intros this p Hcap Hpl. unfold BucketArray_Insert.
    destruct (BucketArray_Insert_log this p) as [[b' [success ref]] log] eqn:Hlog.
    cbn [fst snd].
    apply BucketArray_Insert_log_spec in Hlog as (_ & Hpl' & Hev & _).
    + split; [|auto]. eapply Forall_impl; [exact Hev|].
      intros ev [_ Hsw]. auto.
    + unfold capacity in Hcap.
      pose proof (GetIndex_lt (array_ this) p.1). lia.
Qed.

(** C2. Uniqueness and size: in every reachable state no key is both in
    the table and in the overflow store, no key occurs twice in either of
    them, and [size()] is the number of occupied buckets of the table plus
    the number of entries of the overflow store. *)
Theorem uniqueness_and_size (this : HashMap) :
  reachable this →
  (∀ key, ¬ (key ∈ table_keys this ∧ key ∈ overflow_keys this)) ∧
  NoDup (table_keys this) ∧ NoDup (overflow_keys this) ∧
  HashMap_size this = occupied_count (array_ (b_array_ this)) + length (list_ this).
Proof.
  intros Hr. destruct (reachable_wf this Hr) as [_ _ Hcount _ Hnd].
  unfold elements in Hnd. rewrite fmap_app in Hnd.
  apply NoDup_app in Hnd as (Hnd1 & Hdisj & Hnd2).
  split_and!; [|done|done|].
  - intros key [Ht Ho]. by apply (Hdisj key).
  - unfold HashMap_size, BucketArray_PairsCount. by rewrite Hcount, length_contents.
Qed.

(** C3, as the code has it.  First insert wins: when [key] is not in the
    map, [insert(key, v1)] followed by [insert(key, v2)] leaves [v1] stored
    for [key]; the second insert changes nothing, [size()] included, and
    [operator[]] afterwards returns a reference to [v1] and changes nothing
    either.  (When [key] is in the map already, both inserts are skipped and
    the earlier value stays.) *)
Theorem first_insert_wins (this : HashMap) key (v1 v2 : ValueType) :
  reachable this → found this key = None →
  HashMap_insert (HashMap_insert this (key, v1)) (key, v2) = HashMap_insert this (key, v1) ∧
  HashMap_size (HashMap_insert (HashMap_insert this (key, v1)) (key, v2))
  = HashMap_size (HashMap_insert this (key, v1)) ∧
  found (HashMap_insert (HashMap_insert this (key, v1)) (key, v2)) key = Some v1 ∧
  (HashMap_index (HashMap_insert (HashMap_insert this (key, v1)) (key, v2)) key).1
  = HashMap_insert (HashMap_insert this (key, v1)) (key, v2) ∧
  (HashMap_deref (HashMap_insert (HashMap_insert this (key, v1)) (key, v2))
     (HashMap_index (HashMap_insert (HashMap_insert this (key, v1)) (key, v2)) key).2).2
  = v1.
Proof.
  intros Hr Habs. pose proof (reachable_wf this Hr) as Hwf.
  destruct (HashMap_insert_spec this (key, v1) Hwf) as [Hwf1 _].
  assert (found (HashMap_insert this (key, v1)) key = Some v1) as Hf1.
  { rewrite found_insert, first_value_app, <- found_first_value, Habs by done.
    cbn [first_value fst snd]. by rewrite bool_decide_eq_true_2. }
  assert (HashMap_insert (HashMap_insert this (key, v1)) (key, v2)
          = HashMap_insert this (key, v1)) as Hsame.
  { destruct (HashMap_insert_spec (HashMap_insert this (key, v1)) (key, v2) Hwf1) as [_ Hcase].
    cbn [fst] in Hcase. by rewrite Hf1 in Hcase. }
  rewrite Hsame. split_and!; [done|done|done| |].
  - destruct (HashMap_index_spec _ key Hwf1) as (_ & _ & Hcase).
    rewrite Hf1 in Hcase. apply Hcase.
  - destruct (HashMap_index_spec _ key Hwf1) as (_ & _ & Hcase).
    rewrite Hf1 in Hcase. destruct Hcase as [_ ->]. done.
Qed.

(** C4, as the code has it.  After any finite sequence of inserts into a
    reachable map, [find] on a key gives the value the key had before the
    sequence when it was in the map, and otherwise the value of the FIRST
    insert of that key in the sequence; it finds nothing when the key was
    neither in the map nor inserted.  On a newly constructed map this is the
    first value inserted for the key. *)
Theorem insert_sequence_first_wins (this : HashMap) (pairs : list PairType) key :
  reachable this →
  found (foldl HashMap_insert this pairs) key
  = match found this key with
    | Some value => Some value
    | None => first_value pairs key
    end.
Proof.
  revert this. induction pairs as [|p pairs IH]; intros this Hr.
  - simpl. by destruct (found this key).
  - cbn [foldl]. rewrite IH by apply (reachable_apply this (OpInsert p) Hr).
    change (HashMap_apply this (OpInsert p)) with (HashMap_insert this p).
    rewrite found_insert, first_value_app, <- found_first_value
      by (by apply reachable_wf).
    destruct (found this key); [done|].
    cbn [first_value]. by case_bool_decide.
Qed.

(** C5, as the code has it.  After [clear()] the map is empty: [size()] is
    0, the overflow store is empty, no bucket of the table is occupied, and
    nothing of the old content is kept.  The capacity of the new table is the
    capacity before the call, which is at least the initial capacity. *)
Theorem clear_keeps_capacity (this : HashMap) :
  reachable this →
  HashMap_size (HashMap_clear this) = 0 ∧
  list_ (HashMap_clear this) = [] ∧
  occupied_count (array_ (b_array_ (HashMap_clear this))) = 0 ∧
  elements (HashMap_clear this) = [] ∧
  capacity (b_array_ (HashMap_clear this)) = capacity (b_array_ this) ∧
  INITIAL_SIZE ≤ capacity (b_array_ this).
Proof.
  intros Hr. pose proof (wf_capacity this (reachable_wf this Hr)) as Hcap.
  destruct (HashMap_clear_spec this) as (Harr & Hcount & Hlist).
  unfold HashMap_size, BucketArray_PairsCount, elements.
  rewrite Hcount, Hlist, <- length_contents, Harr, contents_replicate.
  split_and!; try done.
  unfold capacity at 1. rewrite Harr, length_replicate. unfold NEXT. lia.
Qed.


(** C7. Overflow routing: when the table's insert fails on the table that
    [ForceInsert] tries it on (the table after the load-factor check),
    [ForceInsert] appends the pair to the overflow store, keeps the table the
    failed insert left, and returns a reference to the new, last entry of
    the overflow store, which holds the pair.  [find] on the key succeeds
    afterwards.  [ForceInsert] has no failure result. *)
Theorem overflow_routing (this : HashMap) (p : PairType) :
  (BucketArray_Insert (b_array_ (after_load_check this)) p).2.1 = false →
  list_ (HashMap_ForceInsert this p).1 = list_ (after_load_check this) ++ [Bucket_of p] ∧
  b_array_ (HashMap_ForceInsert this p).1
  = (BucketArray_Insert (b_array_ (after_load_check this)) p).1 ∧
  (HashMap_ForceInsert this p).2 = RefList (length (list_ (after_load_check this))) ∧
  HashMap_deref (HashMap_ForceInsert this p).1 (HashMap_ForceInsert this p).2 = p ∧
  RawIterator_eq (HashMap_find (HashMap_ForceInsert this p).1 p.1)
    (HashMap_end (HashMap_ForceInsert this p).1) = false.
Proof.
  rewrite HashMap_ForceInsert_eq. cbv zeta.
  set (this1 := after_load_check this).
  destruct (BucketArray_Insert (b_array_ this1) p) as [b' [success ref]].
  cbn [fst snd]. intros ->. cbn [negb fst snd b_array_ list_].
  split_and!; [done|done|done| |].
  - cbn [HashMap_deref list_]. unfold Bucket_GetRef.
    rewrite (list_lookup_total_correct _ _ (Bucket_of p)); [done|].
    by rewrite lookup_app_r, Nat.sub_diag.
  - unfold HashMap_find, HashMap_end, RawIterator_eq. cbn [b_array_ list_].
    case_decide as Htable; cbn [b_array_iter_ list_iter_].
    + by rewrite bool_decide_eq_false_2.
    + destruct (list_scan_elem (list_ this1 ++ [Bucket_of p]) p.1 0) as (iter & -> & Hlt).
      { rewrite !fmap_app. apply elem_of_app. right. simpl. apply list_elem_of_here. }
      cbn [b_array_iter_ list_iter_].
      rewrite (bool_decide_eq_false_2 (iter = _)) by lia. apply andb_false_r.
Qed.

(** C8. [at] and absent keys: in every reachable state, [at(key)] throws
    [out_of_range] exactly when the key is neither in the table nor in the
    overflow store, and returns the value stored with the key otherwise.
    [at] is a [const] member and returns no map.  On an absent key [find]
    returns [end()] and [erase] returns the map unchanged. *)
Theorem at_key_not_found (this : HashMap) key :
  reachable this →
  (HashMap_at this key = inl (out_of_range "Key was not found")
   ↔ (key ∉ table_keys this) ∧ (key ∉ overflow_keys this)) ∧
  (∀ value, (key, value) ∈ elements this ↔ HashMap_at this key = inr value) ∧
  ((key ∉ table_keys this) ∧ (key ∉ overflow_keys this) →
   HashMap_find this key = HashMap_end this ∧ HashMap_erase this key = this).
Proof.
  intros Hr. pose proof (reachable_wf this Hr) as Hwf.
  pose proof (found_first_value this key Hwf) as Hfv.
  assert ((key ∉ table_keys this) ∧ (key ∉ overflow_keys this) ↔ found this key = None)
    as Habs.
  { rewrite Hfv, first_value_None. unfold elements, table_keys, overflow_keys.
    rewrite fmap_app, elem_of_app. tauto. }
  assert (HashMap_at this key
          = match found this key with
            | Some value => inr value
            | None => inl (out_of_range "Key was not found")
            end) as Hat.
  { unfold HashMap_at, found. by destruct (RawIterator_eq _ _). }
  split_and!.
  - rewrite Habs, Hat. by destruct (found this key).
  - intros value. rewrite Hat. split.
    + intros Hin. by rewrite Hfv, (first_value_elem _ key value) by (apply Hwf || done).
    + destruct (found this key) as [v|] eqn:Hf; [|done].
      intros [= <-]. apply first_value_Some. by rewrite <- Hfv.
  - intros Hnone%Habs. split.
    + apply found_None in Hnone. unfold RawIterator_eq in Hnone.
      apply andb_prop in Hnone as [H1%bool_decide_eq_true H2%bool_decide_eq_true].
      unfold HashMap_find, HashMap_end in *.
      case_decide; [done|].
      destruct (list_scan _ _ _); cbn [list_iter_] in H2; [|done]. by rewrite H2.
    + destruct (HashMap_erase_spec this key Hwf) as [_ Hcase]. by rewrite Hnone in Hcase.
Qed.

(** C9. Bounds of the window scan: on a table with at least one
    addressable position, the ideal index of every key is at most
    [capacity - 1], the vector has [capacity + NEXT - 1] buckets, and every
    index [Find] reads lies in [[ideal, ideal + NEXT)] and inside the
    vector. *)
Theorem find_scan_in_bounds (this : BucketArray) key :
  0 < capacity this →
  BucketArray_GetIndex this key ≤ capacity this - 1 ∧
  length (array_ this) = capacity this + NEXT - 1 ∧
  ∀ i, i ∈ BucketArray_Find_read this key →
    BucketArray_GetIndex this key ≤ i < BucketArray_GetIndex this key + NEXT ∧
    i < length (array_ this).
Proof.
  unfold capacity. intros Hcap.
  assert (NEXT ≤ length (array_ this)) as Hlen by lia.
  pose proof (GetIndex_lt (array_ this) key Hlen) as Hidx.
  unfold BucketArray_GetIndex, BucketArray_Find_read, BucketArray_GetIndex.
  split_and!; [lia|lia|].
  intros i Hi%Find_loop_read. lia.
Qed.

(** C10. The displacement loop reads occupied buckets only: every bucket
    whose key [Insert] reads to compute an ideal index is, at that moment,
    an occupied bucket of the vector. *)
Theorem displacement_reads_occupied (this : BucketArray) (p : PairType) :
  Forall (read_occupied (array_ this)) (BucketArray_Insert_log this p).2.
Proof.
  destruct (decide (GetIndex (array_ this) p.1 ≤ length (array_ this))) as [Hle|Hgt].
  - destruct (BucketArray_Insert_log this p) as [[b' [success ref]] log] eqn:Hlog.
    apply BucketArray_Insert_log_spec in Hlog as (_ & _ & Hev & _); [|done].
    cbn [snd]. eapply Forall_impl; [exact Hev|]. by intros ev [? _].
  - unfold BucketArray_Insert_log, BucketArray_GetIndex.
    rewrite Insert_scan_outside by lia.
    rewrite decide_False by lia. cbn [Insert_while].
    pose proof NEXT_pos. rewrite decide_False by lia. done.
Qed.

End HashMapProofs.

(** ** The properties at concrete maps *)

Lemma reachable_OpInsert_keys (params : HashMapParams nat nat) (this : @HashMap nat nat)
    (keys : list nat) :
  reachable (params := params) this →
  reachable (params := params) (insert_keys params this keys).
Proof.
  unfold insert_keys. revert this.
  induction keys as [|key keys IH]; intros this Hr; [done|].
  cbn [foldl]. apply IH. by apply reachable_apply.
Qed.

Lemma reachable_map_33 : reachable (params := params_id) map_33.
Proof. apply reachable_OpInsert_keys, reachable_new. Qed.

Lemma reachable_map_const_33 : reachable (params := params_const) map_const_33.
Proof. apply reachable_OpInsert_keys, reachable_new. Qed.

Lemma reachable_map_dense : reachable (params := params_id) map_dense.
Proof. apply reachable_OpInsert_keys, reachable_new. Qed.

(** In [map_33], key 7 sits at index 7; inserting key 64, whose window
    [[0, 32)] is full, swaps the bucket of key 2 to index 33. *)
Lemma placement_invariant_witness :
  (BucketArray_GetIndex (params := params_id) (b_array_ map_33) 7 ≤ 7
   < BucketArray_GetIndex (params := params_id) (b_array_ map_33) 7 + NEXT) ∧
  Forall (swap_in_window (params := params_id) (array_ (b_array_ map_33)))
    [ReadKey 2 true; Swap 2 33 {| pair_ := (2, 1002); is_occupied_ := true |}].
Proof.
  split.
  - apply (proj1 (placement_invariant (params := params_id)) map_33 7
             {| pair_ := (7, 1007); is_occupied_ := true |}).
    + exact reachable_map_33.
    + vm_compute. reflexivity.
    + reflexivity.
  - apply (proj2 (placement_invariant (params := params_id)) (b_array_ map_33) (64, 7)).
    + vm_compute. lia.
    + intros j bucket Hj Ho.
      exact (proj1 (placement_invariant (params := params_id)) map_33 j bucket
               reachable_map_33 Hj Ho).
Defined.

(** [map_const_33] has 32 pairs in its table and one in the overflow
    store. *)
Lemma uniqueness_and_size_witness :
  reachable (params := params_const) map_const_33 ∧
  HashMap_size map_const_33
  = occupied_count (array_ (b_array_ map_const_33)) + length (list_ map_const_33).
Proof.
  split; [exact reachable_map_const_33|].
  pose proof (uniqueness_and_size (params := params_const) map_const_33
                reachable_map_const_33) as (_ & _ & _ & Hsize).
  exact Hsize.
Defined.

Lemma first_insert_wins_witness :
  found (params := params_id) map_33 100 = None ∧
  found (params := params_id)
    (HashMap_insert (params := params_id)
       (HashMap_insert (params := params_id) map_33 (100, 1)) (100, 2)) 100 = Some 1.
Proof.
  assert (found (params := params_id) map_33 100 = None) as Habs
    by (vm_compute; reflexivity).
  split; [exact Habs|].
  pose proof (first_insert_wins (params := params_id) map_33 100 1 2 reachable_map_33 Habs)
    as (_ & _ & Hfound & _).
  exact Hfound.
Defined.

(** C3 as stated, for every key, fails: key 5 is in [map_33] with value
    1005, so [insert(5, 1)] and [insert(5, 2)] are both skipped, the value
    stored for 5 is still 1005, not 1, and [operator[]] returns a reference to
    1005. *)
Lemma first_insert_loses_to_present_key :
  reachable (params := params_id) map_33 ∧
  found (params := params_id) map_33 5 = Some 1005 ∧
  HashMap_insert (params := params_id)
    (HashMap_insert (params := params_id) map_33 (5, 1)) (5, 2) = map_33 ∧
  found (params := params_id)
    (HashMap_insert (params := params_id)
       (HashMap_insert (params := params_id) map_33 (5, 1)) (5, 2)) 5 = Some 1005 ∧
  found (params := params_id)
    (HashMap_insert (params := params_id)
       (HashMap_insert (params := params_id) map_33 (5, 1)) (5, 2)) 5 ≠ Some 1 ∧
  (HashMap_deref (params := params_id)
     (HashMap_insert (params := params_id)
        (HashMap_insert (params := params_id) map_33 (5, 1)) (5, 2))
     (HashMap_index (params := params_id)
        (HashMap_insert (params := params_id)
           (HashMap_insert (params := params_id) map_33 (5, 1)) (5, 2)) 5).2).2
  = 1005.
Proof.
  split; [exact reachable_map_33|].
  vm_compute. split_and!; [reflexivity|reflexivity|reflexivity|discriminate|reflexivity].
Qed.

Lemma insert_sequence_first_wins_witness :
  reachable (params := params_id) (HashMap_new (params := params_id)) ∧
  found (params := params_id)
    (foldl (HashMap_insert (params := params_id)) (HashMap_new (params := params_id)) [(1, 10); (1, 20)]) 1
  = Some 10.
Proof.
  split; [apply reachable_new|].
  apply (insert_sequence_first_wins (params := params_id) (HashMap_new (params := params_id))
           [(1, 10); (1, 20)] 1 reachable_new).
Defined.

(** C4 as stated fails: after [insert(1, 10)] and [insert(1, 20)], [find]
    gives 10, and the last value inserted for the key is 20. *)
Lemma last_insert_does_not_win :
  found (params := params_id)
    (foldl (HashMap_insert (params := params_id)) (HashMap_new (params := params_id)) [(1, 10); (1, 20)]) 1
  = Some 10 ∧
  last_value (params := params_id) [(1, 10); (1, 20)] 1 = Some 20 ∧
  found (params := params_id)
    (foldl (HashMap_insert (params := params_id)) (HashMap_new (params := params_id)) [(1, 10); (1, 20)]) 1
  ≠ last_value (params := params_id) [(1, 10); (1, 20)] 1.
Proof. vm_compute. split_and!; [reflexivity|reflexivity|discriminate]. Qed.

Lemma clear_keeps_capacity_witness :
  reachable (params := params_id) map_33 ∧
  HashMap_size (HashMap_clear (params := params_id) map_33) = 0 ∧
  capacity (b_array_ (HashMap_clear (params := params_id) map_33))
  = capacity (b_array_ map_33).
Proof.
  split; [exact reachable_map_33|].
  pose proof (clear_keeps_capacity (params := params_id) map_33 reachable_map_33)
    as (Hsize & _ & _ & _ & Hcap & _).
  split; [exact Hsize|exact Hcap].
Defined.

(** C5 as stated fails: [clear()] on a map whose table has capacity 64
    leaves a table of capacity 64, not of the initial capacity 32. *)
Lemma clear_does_not_reset_capacity :
  capacity (b_array_ map_33) = 64 ∧
  capacity (b_array_ (HashMap_clear (params := params_id) map_33)) = 64 ∧
  capacity (b_array_ (HashMap_clear (params := params_id) map_33)) ≠ INITIAL_SIZE.
Proof. vm_compute. split_and!; [reflexivity|reflexivity|discriminate]. Qed.



(** In [map_const_33] the window of the one ideal index is full: the
    table refuses key 100, which goes to the overflow store. *)
Lemma overflow_routing_witness :
  (BucketArray_Insert (params := params_const)
     (b_array_ (after_load_check (params := params_const) map_const_33)) (100, 7)).2.1
  = false ∧
  (HashMap_ForceInsert (params := params_const) map_const_33 (100, 7)).2 = RefList 1 ∧
  RawIterator_eq
    (HashMap_find (params := params_const)
       (HashMap_ForceInsert (params := params_const) map_const_33 (100, 7)).1 100)
    (HashMap_end (HashMap_ForceInsert (params := params_const) map_const_33 (100, 7)).1)
  = false.
Proof.
  assert ((BucketArray_Insert (params := params_const)
             (b_array_ (after_load_check (params := params_const) map_const_33)) (100, 7)).2.1
          = false) as Hfail by (vm_compute; reflexivity).
  split; [exact Hfail|].
  pose proof (overflow_routing (params := params_const) map_const_33 (100, 7) Hfail)
    as (_ & _ & Href & _ & Hfind).
  split; [exact Href|exact Hfind].
Defined.

(** The other way to fail: in [map_last_32] after the load-factor check,
    every bucket from the ideal index to the end of the vector is occupied. *)
Lemma overflow_routing_full_tail :
  Insert_scan (params := params_last) 95
    (array_ (b_array_ (after_load_check (params := params_last) map_last_32))) 63 = 95 ∧
  (BucketArray_Insert (params := params_last)
     (b_array_ (after_load_check (params := params_last) map_last_32)) (100, 7)).2
  = (false, RefFake) ∧
  (HashMap_ForceInsert (params := params_last) map_last_32 (100, 7)).2 = RefList 0.
Proof. vm_compute. split_and!; reflexivity. Qed.

Lemma at_key_not_found_witness :
  reachable (params := params_id) map_33 ∧
  HashMap_at (params := params_id) map_33 100 = inl (out_of_range "Key was not found") ∧
  HashMap_at (params := params_id) map_33 5 = inr 1005.
Proof.
  split; [exact reachable_map_33|].
  pose proof (at_key_not_found (params := params_id) map_33 5 reachable_map_33)
    as (_ & Hin & _).
  split; [vm_compute; reflexivity|].
  apply Hin. vm_compute.
  do 5 apply list_elem_of_further. apply list_elem_of_here.
Defined.

Lemma find_scan_in_bounds_witness :
  0 < capacity (b_array_ map_33) ∧
  BucketArray_GetIndex (params := params_id) (b_array_ map_33) 200
  ≤ capacity (b_array_ map_33) - 1.
Proof.
  assert (0 < capacity (b_array_ map_33)) as Hcap by (vm_compute; lia).
  split; [exact Hcap|].
  pose proof (find_scan_in_bounds (params := params_id) (b_array_ map_33) 200 Hcap)
    as (Hidx & _ & _).
  exact Hidx.
Defined.

(** The displacement loop does read keys: inserting key 64 into [map_33]
    reads the key of bucket 2 and swaps that bucket with the free bucket 33. *)
Lemma displacement_example :
  (BucketArray_Insert_log (params := params_id) (b_array_ map_33) (64, 7)).2
  = [ReadKey 2 true; Swap 2 33 {| pair_ := (2, 1002); is_occupied_ := true |}] ∧
  (BucketArray_Insert_log (params := params_id) (b_array_ map_33) (64, 7)).1.2
  = (true, RefArray 2).
Proof. vm_compute. split; reflexivity. Qed.

(** * Further properties of the container *)

Section HashMapExtras.

Context {KeyType ValueType : Type} {params : HashMapParams KeyType ValueType}.

Local Abbreviation Bucket := (@Bucket KeyType ValueType).
Local Abbreviation BucketArray := (@BucketArray KeyType ValueType).
Local Abbreviation HashMap := (@HashMap KeyType ValueType).
Local Abbreviation PairType := (KeyType * ValueType)%type.

Implicit Types (arr range : list Bucket) (bucket : Bucket) (key : KeyType).

Lemma size_elements (this : HashMap) :
  wf this → HashMap_size this = length (elements this).
Proof.
  intros Hwf. unfold HashMap_size, BucketArray_PairsCount, elements.
  by rewrite (wf_count _ Hwf), length_app, length_fmap.
Qed.

Lemma wf_table_nodup (this : HashMap) :
  wf this → NoDup (contents (array_ (b_array_ this))).*1.
Proof.
  intros Hwf. pose proof (wf_nodup _ Hwf) as Hnd.
  unfold elements in Hnd. rewrite fmap_app in Hnd. by apply NoDup_app in Hnd as [? _].
Qed.

Lemma found_of_elements (this : HashMap) (l : list PairType) key :
  wf this → elements this ≡ₚ l → found this key = first_value l key.
Proof.
  intros Hwf Hperm. rewrite (found_first_value _ _ Hwf).
  apply first_value_perm; [apply Hwf|done].
Qed.

Lemma found_erase (this : HashMap) key key' :
  wf this →
  found (HashMap_erase this key) key'
  = if bool_decide (key = key') then None else found this key'.
Proof.
  intros Hwf. destruct (HashMap_erase_spec this key Hwf) as [Hwf' Hcase].
  destruct (found this key) as [value|] eqn:Hfound.
  - pose proof (wf_nodup _ Hwf) as Hnd. rewrite Hcase, fmap_cons in Hnd.
    apply NoDup_cons in Hnd as [Hfresh _]. cbn [fst] in Hfresh.
    rewrite (found_of_elements this _ key' Hwf Hcase).
    cbn [first_value fst snd]. rewrite <- (found_first_value _ _ Hwf').
    case_bool_decide as Hk; [|done]. subst key'.
    rewrite (found_first_value _ _ Hwf'). by apply first_value_None.
  - rewrite Hcase. case_bool_decide; [congruence|done].
Qed.

Lemma size_erase (this : HashMap) key :
  wf this →
  HashMap_size (HashMap_erase this key)
  = match found this key with
    | Some _ => HashMap_size this - 1
    | None => HashMap_size this
    end.
Proof.
  intros Hwf. destruct (HashMap_erase_spec this key Hwf) as [Hwf' Hcase].
  destruct (found this key); [|by rewrite Hcase].
  rewrite !size_elements by done. rewrite Hcase. simpl. lia.
Qed.

Lemma size_insert (this : HashMap) (p : PairType) :
  wf this →
  HashMap_size (HashMap_insert this p)
  = match found this p.1 with
    | Some _ => HashMap_size this
    | None => S (HashMap_size this)
    end.
Proof.
  intros Hwf. destruct (HashMap_insert_spec this p Hwf) as [Hwf' Hcase].
  destruct (found this p.1); [by rewrite Hcase|].
  rewrite !size_elements by done. by rewrite Hcase.
Qed.

Lemma found_index (this : HashMap) key key' :
  wf this →
  found (HashMap_index this key).1 key'
  = if bool_decide (key = key') then
      match found this key' with Some value => Some value | None => Some ValueType_default end
    else found this key'.
Proof.
  intros Hwf. destruct (HashMap_index_spec this key Hwf) as (Hwf' & _ & Hcase).
  destruct (found this key) as [value|] eqn:Hfound.
  - destruct Hcase as [-> _]. case_bool_decide as Hk; [|done]. subst key'. by rewrite Hfound.
  - destruct Hcase as [Hperm _].
    rewrite (found_of_elements _ _ key' Hwf' Hperm). cbn [first_value fst snd].
    rewrite <- (found_first_value _ _ Hwf).
    case_bool_decide as Hk; [|done]. subst key'. by rewrite Hfound.
Qed.

Lemma found_assign_second (this : HashMap) ref key value key' :
  wf this → ref_holds this ref key →
  found (HashMap_assign_second this ref value) key'
  = if bool_decide (key = key') then Some value else found this key'.
Proof.
  intros Hwf Href.
  destruct (HashMap_assign_second_spec this ref key value Hwf Href)
    as (Hwf' & old & rest & Hold & Hnew).
  rewrite (found_of_elements _ _ key' Hwf' Hnew), (found_of_elements _ _ key' Hwf Hold).
  cbn [first_value fst snd]. by case_bool_decide.
Qed.

Lemma found_clear (this : HashMap) key : found (HashMap_clear this) key = None.
Proof.
  rewrite (found_first_value _ _ (HashMap_clear_wf this)).
  destruct (HashMap_clear_spec this) as (Harr & _ & Hlist).
  unfold elements. by rewrite Harr, Hlist, contents_replicate.
Qed.

Lemma found_apply (this : HashMap) op key :
  wf this → found (HashMap_apply this op) key = model_apply (found this) op key.
Proof.
  intros Hwf. destruct op as [p|k|k|k value|]; cbn [HashMap_apply model_apply].
  - rewrite found_insert, first_value_app, <- found_first_value by done.
    cbn [first_value]. case_bool_decide; by destruct (found this key).
  - by apply found_erase.
  - by apply found_index.
  - destruct (HashMap_index_spec this k Hwf) as (Hwf' & Href & _).
    pose proof (found_index this k key Hwf) as Hidx.
    destruct (HashMap_index this k) as [this' ref]. cbn [fst snd] in *.
    rewrite (found_assign_second this' ref k value key Hwf' Href), Hidx.
    by case_bool_decide.
  - apply found_clear.
Qed.

(** ** Capacity *)

Lemma capacity_ForceInsert (this : HashMap) (p : PairType) :
  wf this →
  capacity (b_array_ (HashMap_ForceInsert this p).1)
  = capacity (b_array_ (after_load_check this)).
Proof.
  intros Hwf. rewrite HashMap_ForceInsert_eq. cbv zeta.
  destruct (after_load_check_spec this Hwf) as [Hwf1 _].
  destruct (BucketArray_Insert (b_array_ (after_load_check this)) p)
    as [b' [success ref]] eqn:Hins.
  apply BucketArray_Insert_ok in Hins as (_ & Hlen & _); [|by apply wf_table_ok].
  unfold capacity. by destruct success; cbn [negb fst b_array_]; rewrite Hlen.
Qed.

Lemma capacity_after_load_check (this : HashMap) :
  capacity (b_array_ (after_load_check this)) = capacity (b_array_ this) ∨
  capacity (b_array_ (after_load_check this))
  = (capacity (b_array_ this) / 2) `max` INITIAL_SIZE ∨
  capacity (b_array_ (after_load_check this))
  = (capacity (b_array_ this) * 2) `max` INITIAL_SIZE.
Proof.
  unfold after_load_check. destruct (_ || _); [|by left].
  destruct (HashMap_Reconstruct_spec this true) as (_ & -> & _).
  destruct (Qltb _ _); auto.
Qed.

Lemma capacity_erase (this : HashMap) key :
  capacity (b_array_ (HashMap_erase this key)) = capacity (b_array_ this).
Proof.
  unfold HashMap_erase.
  destruct (BucketArray_Erase (b_array_ this) key) as [b' erased] eqn:Herase.
  assert (capacity b' = capacity (b_array_ this)) as Hcap.
  { destruct erased.
    - apply BucketArray_Erase_found in Herase as (_ & _ & Hlen & _).
      unfold capacity. by rewrite Hlen.
    - by apply BucketArray_Erase_absent in Herase as [-> _]. }
  destruct erased; cbn [negb]; [done|]. by destruct (list_scan _ _ _).
Qed.

Lemma capacity_assign_second (this : HashMap) ref value :
  capacity (b_array_ (HashMap_assign_second this ref value)) = capacity (b_array_ this).
Proof.
  destruct ref; cbn [HashMap_assign_second b_array_]; [done| |done].
  unfold capacity. cbn [array_]. by rewrite length_insert.
Qed.

Lemma capacity_apply (this : HashMap) op :
  wf this →
  capacity (b_array_ (HashMap_apply this op)) = capacity (b_array_ this) ∨
  capacity (b_array_ (HashMap_apply this op))
  = (capacity (b_array_ this) / 2) `max` INITIAL_SIZE ∨
  capacity (b_array_ (HashMap_apply this op))
  = (capacity (b_array_ this) * 2) `max` INITIAL_SIZE.
Proof.
  intros Hwf. destruct op as [p|k|k|k value|]; cbn [HashMap_apply].
  - unfold HashMap_insert. destruct (RawIterator_eq _ _); [|by left].
    rewrite capacity_ForceInsert by done. apply capacity_after_load_check.
  - left. apply capacity_erase.
  - unfold HashMap_index. destruct (RawIterator_eq _ _); [|by left].
    rewrite capacity_ForceInsert by done. apply capacity_after_load_check.
  - pose proof (capacity_assign_second (HashMap_index this k).1 (HashMap_index this k).2 value)
      as Hassign.
    destruct (HashMap_index this k) as [this' ref] eqn:Hidx. cbn [fst snd] in Hassign.
    rewrite Hassign. replace this' with (HashMap_index this k).1 by (by rewrite Hidx).
    unfold HashMap_index. destruct (RawIterator_eq _ _); [|by left].
    rewrite capacity_ForceInsert by done. apply capacity_after_load_check.
  - left. pose proof (wf_capacity _ Hwf).
    destruct (HashMap_clear_spec this) as (Harr & _).
    unfold capacity at 1. rewrite Harr, length_replicate. unfold NEXT. lia.
Qed.

Lemma reachable_capacity (this : HashMap) :
  reachable this → ∃ k, capacity (b_array_ this) = INITIAL_SIZE * 2 ^ k.
Proof.
  induction 1 as [|this op Hr [k Hk]].
  - exists 0. unfold HashMap_new. cbn [b_array_]. rewrite capacity_new, Nat.pow_0_r. lia.
  - destruct (capacity_apply this op (reachable_wf _ Hr)) as [->|[->| ->]]; rewrite Hk.
    + by exists k.
    + destruct k as [|k].
      * exists 0. rewrite Nat.pow_0_r. unfold INITIAL_SIZE. simpl. lia.
      * exists k. rewrite Nat.pow_succ_r'.
        replace (INITIAL_SIZE * (2 * 2 ^ k)) with ((INITIAL_SIZE * 2 ^ k) * 2) by lia.
        rewrite Nat.div_mul by done.
        assert (0 < 2 ^ k) by (apply Nat.neq_0_lt_0, Nat.pow_nonzero; lia).
        unfold INITIAL_SIZE in *. nia.
    + exists (S k). rewrite Nat.pow_succ_r'.
      assert (0 < 2 ^ k) by (apply Nat.neq_0_lt_0, Nat.pow_nonzero; lia).
      unfold INITIAL_SIZE in *. nia.
Qed.

(** ** Traversal *)

Lemma traverse_from_list fuel (this : HashMap) j :
  j ≤ length (list_ this) → length (list_ this) - j < fuel →
  traverse_from fuel this
    (mkRawIterator (BucketArray_End (b_array_ this)) (BucketArray_End (b_array_ this))
       j (length (list_ this)))
  = pair_ <$> drop j (list_ this).
Proof.
  revert j. induction fuel as [|fuel IH]; intros j Hj Hfuel; [lia|].
  cbn [traverse_from]. unfold RawIterator_neq, RawIterator_eq, HashMap_end.
  cbn [b_array_iter_ list_iter_].
  rewrite bool_decide_eq_true_2 by done. cbn [andb].
  case_bool_decide as Hend; cbn [negb].
  - subst j. by rewrite drop_all.
  - assert (j < length (list_ this)) as Hlt by lia.
    pose proof (list_lookup_lookup_total_lt _ _ Hlt) as Hl.
    rewrite (drop_S _ _ _ Hl), fmap_cons.
    unfold RawIterator_ref, RawIterator_incr.
    cbn [b_array_iter_ b_array_end_ list_iter_ list_end_].
    rewrite !decide_False by (intros ?; congruence).
    cbn [HashMap_deref]. unfold Bucket_GetRef. f_equal. apply IH; lia.
Qed.

Lemma traverse_from_table fuel (this : HashMap) i :
  i ≤ length (array_ (b_array_ this)) →
  (i < length (array_ (b_array_ this)) → is_occupied_ (array_ (b_array_ this) !!! i) = true) →
  length (array_ (b_array_ this)) - i + length (list_ this) < fuel →
  traverse_from fuel this
    (mkRawIterator i (BucketArray_End (b_array_ this)) 0 (length (list_ this)))
  = contents (drop i (array_ (b_array_ this))) ++ (pair_ <$> list_ this).
Proof.
  set (arr := array_ (b_array_ this)).
  revert i. induction fuel as [|fuel IH]; intros i Hi Hocc Hfuel; [lia|].
  destruct (decide (i = length arr)) as [->|Hne].
  - rewrite drop_all. change (contents []) with (@nil PairType). cbn [app].
    exact (traverse_from_list (S fuel) this 0 ltac:(lia) ltac:(lia)).
  - assert (i < length arr) as Hlt by lia. specialize (Hocc Hlt).
    pose proof (list_lookup_lookup_total_lt _ _ Hlt) as Hl.
    cbn [traverse_from]. unfold RawIterator_neq, RawIterator_eq, HashMap_end, BucketArray_End.
    cbn [b_array_iter_ list_iter_]. fold arr.
    rewrite (bool_decide_eq_false_2 (i = length arr)) by done. cbn [andb negb].
    unfold RawIterator_ref, RawIterator_incr, BucketArray_End.
    cbn [b_array_iter_ b_array_end_ list_iter_ list_end_]. fold arr.
    rewrite !decide_True by done.
    cbn [HashMap_deref]. unfold Bucket_GetRef. fold arr.
    rewrite (drop_S _ _ _ Hl), contents_cons. unfold bucket_pairs at 1.
    rewrite Hocc. cbn [app]. f_equal.
    rewrite incr_from_FirstOccupied.
    destruct (FirstOccupied_from_spec (drop (S i) arr) arr (S i)) as (Hr & Hc & Ho);
      [done|lia|].
    rewrite <- Hc. apply IH; [lia|done|lia].
Qed.

Lemma traverse_from_begin fuel (this : HashMap) :
  length (array_ (b_array_ this)) + length (list_ this) < fuel →
  traverse_from fuel this (HashMap_begin this) = elements this.
Proof.
  intros Hfuel. unfold HashMap_begin, BucketArray_FirstOccupiedBucket, BucketArray_Begin.
  destruct (FirstOccupied_from_spec (drop 0 (array_ (b_array_ this)))
              (array_ (b_array_ this)) 0) as (Hr & Hc & Ho); [done|lia|].
  rewrite traverse_from_table; [|lia|done|lia].
  unfold elements. by rewrite Hc, drop_0.
Qed.

(** ** A table with room in the window *)

Lemma NoDup_contents_index arr i j bucket1 bucket2 :
  NoDup (contents arr).*1 →
  arr !! i = Some bucket1 → arr !! j = Some bucket2 →
  is_occupied_ bucket1 = true → is_occupied_ bucket2 = true →
  (pair_ bucket1).1 = (pair_ bucket2).1 → i = j.
Proof.
  intros Hnd Hi Hj Ho1 Ho2 Hk.
  destruct (decide (i = j)) as [|Hne]; [done|]. exfalso.
  rewrite (contents_split arr i bucket1 Hi) in Hnd.
  unfold bucket_pairs in Hnd. rewrite Ho1 in Hnd.
  rewrite !fmap_app, fmap_cons in Hnd. cbn [fmap list_fmap app] in Hnd.
  apply NoDup_app in Hnd as (_ & Hdisj & Hnd2).
  apply NoDup_cons in Hnd2 as [Hfresh _].
  assert (∀ l : list Bucket, bucket2 ∈ l → (pair_ bucket1).1 ∈ (contents l).*1) as Hmem.
  { intros l [q Hq]%list_elem_of_lookup. rewrite Hk. apply list_elem_of_fmap.
    exists (pair_ bucket2). split; [done|]. apply elem_of_contents. eauto. }
  destruct (decide (j < i)) as [Hlt|Hge].
  - apply (Hdisj (pair_ bucket1).1).
    + apply Hmem. apply list_elem_of_lookup. exists j. by rewrite lookup_take_lt.
    + apply list_elem_of_here.
  - apply Hfresh. apply Hmem. apply list_elem_of_lookup. exists (j - S i).
    rewrite lookup_drop. by replace (S i + (j - S i)) with j by lia.
Qed.

Lemma foldl_model_apply_ext (ops : list HashMapOp) (view1 view2 : KeyType → option ValueType) :
  (∀ key, view1 key = view2 key) →
  ∀ key, foldl model_apply view1 ops key = foldl model_apply view2 ops key.
Proof.
  revert view1 view2. induction ops as [|op ops IH]; intros view1 view2 Hext key; [done|].
  cbn [foldl]. apply IH. intros key'.
  destruct op; cbn [model_apply]; by rewrite ?Hext.
Qed.

Lemma reachable_foldl_apply (this : HashMap) (ops : list HashMapOp) :
  reachable this → reachable (foldl HashMap_apply this ops).
Proof.
  revert this. induction ops as [|op ops IH]; intros this Hr; [done|].
  cbn [foldl]. apply IH. by apply reachable_apply.
Qed.

Lemma first_value_is_Some (l : list PairType) key :
  is_Some (first_value l key) ↔ key ∈ l.*1.
Proof.
  destruct (first_value l key) as [value|] eqn:Hfv.
  - split; [|by eauto]. intros _. apply first_value_Some in Hfv.
    apply list_elem_of_fmap. by exists (key, value).
  - apply first_value_None in Hfv. split; [by intros [? ?]|done].
Qed.

Lemma found_foldl_insert (this : HashMap) (pairs : list PairType) key :
  reachable this →
  found (foldl HashMap_insert this pairs) key
  = first_value (elements this ++ pairs) key.
Proof.
  revert this. induction pairs as [|p pairs IH]; intros this Hr.
  - rewrite app_nil_r. apply found_first_value. by apply reachable_wf.
  - cbn [foldl]. rewrite IH by apply (reachable_apply this (OpInsert p) Hr).
    change (HashMap_apply this (OpInsert p)) with (HashMap_insert this p).
    pose proof (reachable_wf _ Hr) as Hwf.
    destruct (HashMap_insert_spec this p Hwf) as [Hwf' _].
    rewrite !first_value_app, <- (found_first_value _ _ Hwf'), found_insert by done.
    rewrite first_value_app. cbn [first_value].
    destruct (first_value (elements this) key); [done|]. by case_bool_decide.
Qed.

Lemma elements_nil_found (this : HashMap) :
  wf this → elements this = [] ↔ ∀ key, found this key = None.
Proof.
  intros Hwf. split.
  - intros Hnil key. by rewrite (found_first_value _ _ Hwf), Hnil.
  - intros Hnone. destruct (elements this) as [|[k v] l] eqn:Hel; [done|].
    specialize (Hnone k). rewrite (found_first_value _ _ Hwf), Hel in Hnone.
    cbn [first_value fst] in Hnone. by rewrite bool_decide_eq_true_2 in Hnone.
Qed.

(** X1. [erase] removes the key and nothing else: afterwards [find] on the
    key finds nothing, every other key keeps its value, [size()] has gone
    down by one exactly when the key was in the map, and the capacity of the
    table is unchanged (no shrinking on erase, whatever the load factor). *)
Theorem erase_removes_key (this : HashMap) key :
  reachable this →
  found (HashMap_erase this key) key = None ∧
  (∀ key', key' ≠ key → found (HashMap_erase this key) key' = found this key') ∧
  HashMap_size (HashMap_erase this key)
  = match found this key with
    | Some _ => HashMap_size this - 1
    | None => HashMap_size this
    end ∧
  capacity (b_array_ (HashMap_erase this key)) = capacity (b_array_ this).
Proof.
  intros Hr. pose proof (reachable_wf _ Hr) as Hwf. split_and!.
  - rewrite found_erase by done. by rewrite bool_decide_eq_true_2.
  - intros key' Hne. rewrite found_erase by done. by rewrite bool_decide_eq_false_2.
  - by apply size_erase.
  - apply capacity_erase.
Qed.

(** X2. Erase, then insert: after [erase(key)] and [insert(key, value)],
    [find] on the key gives [value], and every other key has the value it
    had before the two calls. *)
Theorem erase_then_insert (this : HashMap) key (value : ValueType) :
  reachable this →
  found (HashMap_insert (HashMap_erase this key) (key, value)) key = Some value ∧
  ∀ key', key' ≠ key →
    found (HashMap_insert (HashMap_erase this key) (key, value)) key' = found this key'.
Proof.
  intros Hr. pose proof (reachable_wf _ Hr) as Hwf.
  assert (wf (HashMap_erase this key)) as Hwf' by (by apply HashMap_erase_spec).
  assert (∀ key', found (HashMap_insert (HashMap_erase this key) (key, value)) key'
                  = if bool_decide (key = key') then Some value else found this key') as Hall.
  { intros key'. rewrite found_insert, first_value_app, <- found_first_value by done.
    rewrite found_erase by done. cbn [first_value fst snd].
    case_bool_decide; [done|]. by destruct (found this key'). }
  split.
  - rewrite Hall. by rewrite bool_decide_eq_true_2.
  - intros key' Hne. rewrite Hall. by rewrite bool_decide_eq_false_2.
Qed.

(** X3. What [insert] does: the key of the pair gets the value of the pair
    when the key was absent and keeps its value when it was present, every
    other key keeps its value (also when the insert rebuilds the table), and
    [size()] grows by one exactly when the key was absent. *)
Theorem insert_effect (this : HashMap) (p : PairType) :
  reachable this →
  (∀ key, found (HashMap_insert this p) key
          = if bool_decide (p.1 = key) then
              match found this key with Some value => Some value | None => Some p.2 end
            else found this key) ∧
  HashMap_size (HashMap_insert this p)
  = match found this p.1 with
    | Some _ => HashMap_size this
    | None => S (HashMap_size this)
    end.
Proof.
  intros Hr. pose proof (reachable_wf _ Hr) as Hwf. split.
  - intros key. apply (found_apply this (OpInsert p) key Hwf).
  - by apply size_insert.
Qed.

(** X4. [operator[]] on an absent key stores the key with the default
    value; on a present key it changes nothing.  In both cases the reference
    it returns designates the pair of the key in the resulting map, and every
    other key keeps its value. *)
Theorem index_vivifies (this : HashMap) key :
  reachable this →
  HashMap_deref (HashMap_index this key).1 (HashMap_index this key).2
  = (key, match found this key with Some value => value | None => ValueType_default end) ∧
  found (HashMap_index this key).1 key
  = Some (match found this key with Some value => value | None => ValueType_default end) ∧
  (∀ key', key' ≠ key → found (HashMap_index this key).1 key' = found this key') ∧
  (is_Some (found this key) → (HashMap_index this key).1 = this).
Proof.
  intros Hr. pose proof (reachable_wf _ Hr) as Hwf.
  destruct (HashMap_index_spec this key Hwf) as (_ & _ & Hcase).
  split_and!.
  - destruct (found this key); destruct Hcase as [Hmap Hd]; [by rewrite Hmap|done].
  - rewrite found_index by done. rewrite bool_decide_eq_true_2 by done.
    by destruct (found this key).
  - intros key' Hne. rewrite found_index by done. by rewrite bool_decide_eq_false_2.
  - intros [value Hv]. rewrite Hv in Hcase. apply Hcase.
Qed.

(** X5. [map[key] = value]: afterwards [find] on the key gives [value],
    whether or not the key was in the map, and every other key keeps its
    value. *)
Theorem index_assign_effect (this : HashMap) key (value : ValueType) :
  reachable this →
  found (HashMap_apply this (OpIndexAssign key value)) key = Some value ∧
  ∀ key', key' ≠ key →
    found (HashMap_apply this (OpIndexAssign key value)) key' = found this key'.
Proof.
  intros Hr. pose proof (reachable_wf _ Hr) as Hwf. split.
  - rewrite found_apply by done. cbn [model_apply]. by rewrite bool_decide_eq_true_2.
  - intros key' Hne. rewrite found_apply by done. cbn [model_apply].
    by rewrite bool_decide_eq_false_2.
Qed.

(** X6. The container is a finite map: after any sequence of public
    operations on a newly constructed map, [find] on a key gives what the
    sequence gives on the finite map that starts empty, where insert keeps
    an existing value, erase removes, [operator[]] adds the default value
    when the key is absent, [map[key] = value] overwrites and clear removes
    everything. *)
Theorem hash_map_refines_model (ops : list HashMapOp) key :
  found (foldl HashMap_apply HashMap_new ops) key
  = foldl model_apply (λ _, None) ops key.
Proof.
  assert (∀ this : HashMap, reachable this →
            found (foldl HashMap_apply this ops) key
            = foldl model_apply (found this) ops key) as Hgen.
  { induction ops as [|op ops IH]; intros this Hr; [done|].
    cbn [foldl]. rewrite IH by (by apply reachable_apply).
    apply foldl_model_apply_ext. intros key'.
    apply found_apply. by apply reachable_wf. }
  rewrite Hgen by apply reachable_new.
  apply foldl_model_apply_ext. intros key'.
  rewrite (found_first_value _ _ wf_new). unfold elements, HashMap_new, BucketArray_new.
  cbn [b_array_ list_ array_]. by rewrite contents_replicate.
Qed.

(** X7. Traversal: a loop from [begin()] to [end()] visits the pairs of the
    occupied buckets of the table in physical order and then the entries of
    the overflow store, and stops; more fuel does not make it longer.  In a
    reachable state it visits every key once, [size()] pairs in all, and the
    pairs it visits are the ones [find] finds. *)
Theorem traversal_visits_elements (this : HashMap) :
  HashMap_traverse this
  = contents (array_ (b_array_ this)) ++ (pair_ <$> list_ this) ∧
  (∀ fuel, BucketArray_ArraySize (b_array_ this) + length (list_ this) < fuel →
     traverse_from fuel this (HashMap_begin this) = HashMap_traverse this) ∧
  (reachable this →
   NoDup (HashMap_traverse this).*1 ∧
   length (HashMap_traverse this) = HashMap_size this ∧
   ∀ key value, (key, value) ∈ HashMap_traverse this ↔ found this key = Some value).
Proof.
  assert (HashMap_traverse this = elements this) as Htr.
  { unfold HashMap_traverse, BucketArray_ArraySize. apply traverse_from_begin. lia. }
  split_and!.
  - done.
  - intros fuel Hfuel. rewrite Htr. by apply traverse_from_begin.
  - intros Hr. pose proof (reachable_wf _ Hr) as Hwf. rewrite Htr. split_and!.
    + apply Hwf.
    + by rewrite size_elements.
    + intros key value. rewrite (found_first_value _ _ Hwf). split.
      * apply first_value_elem, Hwf.
      * apply first_value_Some.
Qed.

(** X8. Range construction: the map built from a sequence of pairs gives,
    for each key, the value of the first pair with that key, and its
    [size()] is the number of distinct keys of the sequence. *)
Theorem range_constructor (range : list PairType) :
  (∀ key, found (HashMap_from_range range) key = first_value range key) ∧
  HashMap_size (HashMap_from_range range) = length (remove_dups range.*1).
Proof.
  assert (reachable (HashMap_from_range range)) as Hr
    by apply reachable_insert_keys, reachable_new.
  pose proof (reachable_wf _ Hr) as Hwf.
  assert (∀ key, found (HashMap_from_range range) key = first_value range key) as Hfound.
  { intros key. unfold HashMap_from_range.
    rewrite found_foldl_insert by apply reachable_new.
    unfold elements, HashMap_new, BucketArray_new.
    cbn [b_array_ list_ array_]. by rewrite contents_replicate. }
  split; [done|].
  rewrite size_elements by done. rewrite <- (length_fmap fst).
  apply Permutation_length, NoDup_Permutation; [apply Hwf|apply NoDup_remove_dups|].
  intros key. rewrite elem_of_remove_dups.
  by rewrite <- !first_value_is_Some, <- (found_first_value _ _ Hwf), Hfound.
Qed.

(** X9. Rehashing loses nothing: after [Reconstruct], with or without a
    change of size, [find] gives for every key what it gave before, and
    [size()] is the same; only the split between table and overflow store
    may change. *)
Theorem reconstruct_preserves (this : HashMap) (change_size : bool) :
  reachable this →
  (∀ key, found (HashMap_Reconstruct this change_size false) key = found this key) ∧
  HashMap_size (HashMap_Reconstruct this change_size false) = HashMap_size this ∧
  HashMap_traverse (HashMap_Reconstruct this change_size false) ≡ₚ HashMap_traverse this.
Proof.
  intros Hr. pose proof (reachable_wf _ Hr) as Hwf.
  pose proof (HashMap_Reconstruct_wf this change_size (wf_nodup _ Hwf)) as Hwf'.
  destruct (HashMap_Reconstruct_spec this change_size) as (_ & _ & _ & Hperm).
  split_and!.
  - intros key. rewrite (found_of_elements _ _ key Hwf' Hperm).
    symmetry. by apply found_first_value.
  - rewrite !size_elements by done. by rewrite Hperm.
  - unfold HashMap_traverse, BucketArray_ArraySize.
    by rewrite !traverse_from_begin by lia.
Qed.

(** X10. [empty()]: in a reachable state [empty()] holds exactly when
    [find] finds no key, and exactly when [begin() == end()]. *)
Theorem empty_iff (this : HashMap) :
  reachable this →
  (HashMap_empty this = true ↔ ∀ key, found this key = None) ∧
  (HashMap_empty this = true
   ↔ RawIterator_eq (HashMap_begin this) (HashMap_end this) = true).
Proof.
  intros Hr. pose proof (reachable_wf _ Hr) as Hwf.
  assert (HashMap_empty this = true ↔ elements this = []) as Hempty.
  { unfold HashMap_empty. rewrite bool_decide_eq_true, size_elements by done.
    split; [apply nil_length_inv|by intros ->]. }
  split.
  - by rewrite Hempty, elements_nil_found.
  - rewrite Hempty.
    pose proof (traverse_from_begin 
                  (S (length (array_ (b_array_ this)) + length (list_ this))) this
                  ltac:(lia)) as Htr.
    cbn [traverse_from] in Htr. unfold RawIterator_neq in Htr.
    destruct (RawIterator_eq (HashMap_begin this) (HashMap_end this));
      cbn [negb] in Htr; rewrite <- Htr; split; done.
Qed.

Lemma Insert_scan_first_free (this : BucketArray) key j :
  0 < capacity this →
  BucketArray_GetIndex this key ≤ j < BucketArray_GetIndex this key + NEXT →
  is_occupied_ (array_ this !!! j) = false →
  BucketArray_GetIndex this key
  ≤ Insert_scan (length (array_ this)) (array_ this) (BucketArray_GetIndex this key) ≤ j ∧
  j < length (array_ this) ∧
  (∀ q, BucketArray_GetIndex this key ≤ q
        < Insert_scan (length (array_ this)) (array_ this) (BucketArray_GetIndex this key) →
        is_occupied_ (array_ this !!! q) = true) ∧
  is_occupied_
    (array_ this
     !!! Insert_scan (length (array_ this)) (array_ this) (BucketArray_GetIndex this key))
  = false.
Proof.
  unfold capacity, BucketArray_GetIndex. intros Hcap Hj Hfree.
  assert (NEXT ≤ length (array_ this)) as Hlen by lia.
  pose proof (GetIndex_lt (array_ this) key Hlen) as Hidx.
  destruct (Insert_scan_spec (length (array_ this)) (array_ this)
              (GetIndex (array_ this) key)) as (Hr & Hbefore & Hat); [lia|lia|].
  set (e := Insert_scan (length (array_ this)) (array_ this) (GetIndex (array_ this) key))
    in *.
  assert (e ≤ j) as Hej.
  { destruct (decide (e ≤ j)) as [|Hgt]; [done|].
    rewrite Hbefore in Hfree by lia. done. }
  split_and!; [lia|lia|lia|done|apply Hat; lia].
Qed.

Lemma BucketArray_Insert_log_near (this : BucketArray) (p : PairType) :
  Insert_scan (length (array_ this)) (array_ this) (BucketArray_GetIndex this p.1)
  < length (array_ this) →
  Insert_scan (length (array_ this)) (array_ this) (BucketArray_GetIndex this p.1)
  < BucketArray_GetIndex this p.1 + NEXT →
  BucketArray_Insert_log this p
  = ({| array_ :=
          <[Insert_scan (length (array_ this)) (array_ this) (BucketArray_GetIndex this p.1)
            := Bucket_of p]> (array_ this);
        pairs_count_ := S (pairs_count_ this) |},
     (true,
      RefArray
        (Insert_scan (length (array_ this)) (array_ this) (BucketArray_GetIndex this p.1))),
     []).
Proof.
  intros Hlt Hnear. unfold BucketArray_Insert_log.
  rewrite decide_False by lia. cbn [Insert_while].
  rewrite decide_False by lia. by rewrite Bucket_Set_of.
Qed.

(** X11. A table with room in the window takes the pair without moving
    anything: when some bucket in the window of the key is free, [Insert]
    succeeds, writes the pair into the first free bucket at or after the
    ideal index, performs no swap and reads no key, leaves every other bucket
    as it was, and increments the count. *)
Theorem insert_with_room (this : BucketArray) (p : PairType) j :
  0 < capacity this →
  BucketArray_GetIndex this p.1 ≤ j < BucketArray_GetIndex this p.1 + NEXT →
  is_occupied_ (array_ this !!! j) = false →
  ∃ e,
    BucketArray_GetIndex this p.1 ≤ e ≤ j ∧
    (∀ q, BucketArray_GetIndex this p.1 ≤ q < e → is_occupied_ (array_ this !!! q) = true) ∧
    is_occupied_ (array_ this !!! e) = false ∧
    BucketArray_Insert_log this p
    = ({| array_ := <[e := Bucket_of p]> (array_ this);
          pairs_count_ := S (pairs_count_ this) |},
       (true, RefArray e), []).
Proof.
  intros Hcap Hj Hfree.
  destruct (Insert_scan_first_free this p.1 j Hcap Hj Hfree) as (He & Hlen & Hocc & Hfirst).
  exists (Insert_scan (length (array_ this)) (array_ this) (BucketArray_GetIndex this p.1)).
  split; [exact He|]. split; [exact Hocc|]. split; [exact Hfirst|].
  apply BucketArray_Insert_log_near; lia.
Qed.

(** X12. The overflow store is used only when the window is full: when
    [ForceInsert] returns a reference into the overflow store, every bucket
    in the window of the key was occupied in the table the insert was tried
    on (the table after the load-factor check). *)
Theorem overflow_only_when_window_full (this : HashMap) (p : PairType) i j :
  reachable this →
  (HashMap_ForceInsert this p).2 = RefList i →
  BucketArray_GetIndex (b_array_ (after_load_check this)) p.1 ≤ j
  < BucketArray_GetIndex (b_array_ (after_load_check this)) p.1 + NEXT →
  is_occupied_ (array_ (b_array_ (after_load_check this)) !!! j) = true.
Proof.
  intros Hr Href Hj. pose proof (reachable_wf _ Hr) as Hwf.
  destruct (after_load_check_spec this Hwf) as [Hwf1 _].
  destruct (is_occupied_ (array_ (b_array_ (after_load_check this)) !!! j)) eqn:Ho; [done|].
  exfalso.
  assert (0 < capacity (b_array_ (after_load_check this))) as Hcap.
  { pose proof (wf_capacity _ Hwf1). unfold INITIAL_SIZE in *. lia. }
  destruct (Insert_scan_first_free (b_array_ (after_load_check this)) p.1 j Hcap Hj Ho)
    as (He & Hlen & _ & _).
  rewrite HashMap_ForceInsert_eq in Href. cbv zeta in Href.
  unfold BucketArray_Insert in Href.
  rewrite BucketArray_Insert_log_near in Href by lia. done.
Qed.

(** X13. Insert, then find, on the table: when a table that satisfies its
    invariant, with distinct keys, does not hold the key, and [Insert]
    succeeds, then [Find] on the key returns the position [Insert] returned
    a reference to. *)
Theorem table_insert_then_find (this : BucketArray) (p : PairType) b' e :
  table_ok this → NoDup (contents (array_ this)).*1 →
  p.1 ∉ (contents (array_ this)).*1 →
  BucketArray_Insert this p = (b', (true, RefArray e)) →
  BucketArray_Find b' p.1 = e ∧ array_ b' !! e = Some (Bucket_of p).
Proof.
  intros Hok Hnd Hfresh Hins.
  apply BucketArray_Insert_ok in Hins as ((Hlen & Hpl & _) & _ & Hperm & e' & [= <-] & He);
    [|done].
  split; [|done].
  assert (NoDup (contents (array_ b')).*1) as Hnd'.
  { rewrite Hperm, fmap_cons. by apply NoDup_cons. }
  destruct (decide (BucketArray_Find b' p.1 = BucketArray_End b')) as [Hend|Hfound].
  - apply (BucketArray_Find_absent _ _ Hpl) in Hend. exfalso. apply Hend.
    rewrite Hperm, fmap_cons. apply list_elem_of_here.
  - destruct (BucketArray_Find_found b' p.1 Hfound) as (bucket & Hl & Ho & Hk).
    by apply (NoDup_contents_index (array_ b') _ _ bucket (Bucket_of p) Hnd' Hl He).
Qed.

(** X14. Capacities and thresholds: in every reachable state the capacity
    of the table is the initial capacity times a power of two, the vector
    has an odd number of buckets, and the load factor is neither exactly
    0.1 nor exactly 0.5. *)
Theorem capacity_power_of_two (this : HashMap) :
  reachable this →
  (∃ k, capacity (b_array_ this) = INITIAL_SIZE * 2 ^ k) ∧
  length (array_ (b_array_ this)) `mod` 2 = 1 ∧
  ¬ (BucketArray_LoadFactor (b_array_ this) == MIN_LOAD_FACTOR)%Q ∧
  ¬ (BucketArray_LoadFactor (b_array_ this) == MAX_LOAD_FACTOR)%Q.
Proof.
  intros Hr. destruct (reachable_capacity this Hr) as [k Hk].
  assert (0 < 2 ^ k) as Hpow by (apply Nat.neq_0_lt_0, Nat.pow_nonzero; lia).
  assert (length (array_ (b_array_ this)) = 2 * (16 * 2 ^ k + 15) + 1) as Hlen.
  { unfold capacity, INITIAL_SIZE, NEXT in Hk. lia. }
  split_and!.
  - by exists k.
  - rewrite Hlen, Nat.add_comm, Nat.mul_comm, Nat.Div0.mod_add. done.
  - unfold BucketArray_LoadFactor, MIN_LOAD_FACTOR, Qeq. cbn [Qnum Qden].
    rewrite Hlen. lia.
  - unfold BucketArray_LoadFactor, MAX_LOAD_FACTOR, Qeq. cbn [Qnum Qden].
    rewrite Hlen. lia.
Qed.

(** X15. The displacement loop ends: on a table with at least one
    addressable position, when the first scan has found a free bucket, the
    [while] loop needs no more than [empty_bucket + 1] iterations; with any
    larger bound on the number of iterations its result is the same. *)
Theorem displacement_terminates (this : BucketArray) (p : PairType) fuel :
  0 < capacity this →
  Insert_scan (length (array_ this)) (array_ this) (BucketArray_GetIndex this p.1)
  < length (array_ this) →
  Insert_scan (length (array_ this)) (array_ this) (BucketArray_GetIndex this p.1) < fuel →
  Insert_while fuel (BucketArray_GetIndex this p.1) (array_ this)
    (Insert_scan (length (array_ this)) (array_ this) (BucketArray_GetIndex this p.1))
    true []
  = Insert_while
      (S (Insert_scan (length (array_ this)) (array_ this) (BucketArray_GetIndex this p.1)))
      (BucketArray_GetIndex this p.1) (array_ this)
      (Insert_scan (length (array_ this)) (array_ this) (BucketArray_GetIndex this p.1))
      true [].
Proof.
  unfold capacity, BucketArray_GetIndex. intros Hcap Hfree Hfuel.
  assert (NEXT ≤ length (array_ this)) as Hlen by lia.
  pose proof (GetIndex_lt (array_ this) p.1 Hlen) as Hidx.
  destruct (Insert_scan_spec (length (array_ this)) (array_ this)
              (GetIndex (array_ this) p.1)) as (Hr & Hbefore & Hat); [lia|lia|].
  apply (Insert_while_fuel (array_ this)); [done|lia| |done].
  unfold displaced. split_and!; [done|done|done|lia|done|done|by apply Hat].
Qed.

Lemma Find_loop_ext n arr1 arr2 key i :
  (∀ q, Bucket_HasKey (arr1 !!! q) key = Bucket_HasKey (arr2 !!! q) key) →
  Find_loop n arr1 key i = Find_loop n arr2 key i.
Proof.
  intros Hext. revert i. induction n as [|n IH]; intros i; cbn [Find_loop]; [done|].
  by rewrite Hext, IH.
Qed.

Lemma BucketArray_Find_present (this : BucketArray) key :
  placed (array_ this) → key ∈ (contents (array_ this)).*1 →
  BucketArray_Find this key ≠ BucketArray_End this.
Proof. intros Hpl Hin Hend. by apply (BucketArray_Find_absent _ _ Hpl) in Hend. Qed.

Lemma BucketArray_Find_End_iff (this : BucketArray) key :
  placed (array_ this) →
  BucketArray_Find this key = BucketArray_End this ↔ key ∉ (contents (array_ this)).*1.
Proof.
  intros Hpl. split; [by apply BucketArray_Find_absent|].
  intros Habs. destruct (decide (BucketArray_Find this key = BucketArray_End this))
    as [|Hfound]; [done|].
  destruct (BucketArray_Find_found this key Hfound) as (bucket & Hl & Ho & Hk).
  exfalso. apply Habs. apply list_elem_of_fmap. exists (pair_ bucket).
  split; [done|]. apply elem_of_contents. eauto.
Qed.

(** X16. The bounded lookup is complete: on a table that satisfies the
    placement invariant, [Find] returns [end()] exactly when no occupied
    bucket of the whole vector holds the key; otherwise it returns the index
    of an occupied bucket that holds the key, inside the window of the key
    and inside the vector. *)
Theorem table_find_complete (this : BucketArray) key :
  table_ok this →
  (BucketArray_Find this key = BucketArray_End this
   ↔ key ∉ (contents (array_ this)).*1) ∧
  (BucketArray_Find this key ≠ BucketArray_End this →
   BucketArray_GetIndex this key ≤ BucketArray_Find this key
   < BucketArray_GetIndex this key + NEXT ∧
   BucketArray_Find this key < length (array_ this) ∧
   Bucket_HasKey (array_ this !!! BucketArray_Find this key) key = true).
Proof.
  intros (Hlen & Hpl & _). split.
  - by apply BucketArray_Find_End_iff.
  - intros Hfound.
    destruct (BucketArray_Find_found this key Hfound) as (bucket & Hl & Ho & Hk).
    pose proof (Hpl _ _ Hl Ho) as Hw. rewrite Hk in Hw.
    unfold in_window in Hw. unfold BucketArray_GetIndex.
    split; [lia|]. split; [apply (lookup_lt_Some _ _ _ Hl)|].
    rewrite (list_lookup_total_correct _ _ _ Hl).
    unfold Bucket_HasKey, Bucket_IsOccupied. rewrite Ho. by rewrite bool_decide_eq_true_2.
Qed.

(** X17. [Erase] on the table only marks: it frees the bucket [Find]
    returned and touches no other bucket, so afterwards [Find] on the key
    returns [end()], [Find] on every other key returns what it returned
    before, and the count has gone down by one.  When [Find] finds nothing,
    the table is unchanged. *)
Theorem table_erase_only_marks (this : BucketArray) key :
  table_ok this → NoDup (contents (array_ this)).*1 →
  (BucketArray_Find this key = BucketArray_End this →
   BucketArray_Erase this key = (this, false)) ∧
  (BucketArray_Find this key ≠ BucketArray_End this →
   (BucketArray_Erase this key).2 = true ∧
   array_ (BucketArray_Erase this key).1
   = <[BucketArray_Find this key := Bucket_Erase (array_ this !!! BucketArray_Find this key)]>
       (array_ this) ∧
   S (pairs_count_ (BucketArray_Erase this key).1) = pairs_count_ this ∧
   BucketArray_Find (BucketArray_Erase this key).1 key
   = BucketArray_End (BucketArray_Erase this key).1 ∧
   ∀ key', key' ≠ key →
     BucketArray_Find (BucketArray_Erase this key).1 key' = BucketArray_Find this key').
Proof.
  intros (Hlen & Hpl & Hcount) Hnd. unfold BucketArray_Erase. split.
  - intros Hend. by rewrite decide_False by (by intros ?).
  - intros Hfound. rewrite decide_True by done. cbn [fst snd array_ pairs_count_].
    destruct (BucketArray_Find_found this key Hfound) as (bucket & Hl & Ho & Hk).
    set (it := BucketArray_Find this key) in *.
    rewrite (list_lookup_total_correct _ _ _ Hl).
    pose proof (contents_insert_free (array_ this) it bucket (Bucket_Erase bucket) Hl Ho eq_refl)
      as Hperm.
    set (this' := {| array_ := <[it:=Bucket_Erase bucket]> (array_ this);
                     pairs_count_ := pairs_count_ this - 1 |}).
    split_and!; [done|done| | |].
    + rewrite Hcount, Hperm. simpl. lia.
    + destruct (decide (BucketArray_Find this' key = BucketArray_End this')) as [|Hagain];
        [done|]. exfalso.
      rewrite Hperm, fmap_cons in Hnd. apply NoDup_cons in Hnd as [Hfresh _].
      apply Hfresh. rewrite Hk.
      destruct (BucketArray_Find_found this' key Hagain) as (bucket' & Hl' & Ho' & Hk').
      apply list_elem_of_fmap. exists (pair_ bucket'). split; [done|].
      apply elem_of_contents. eauto.
    + intros key' Hne. unfold BucketArray_Find, BucketArray_GetIndex, BucketArray_End, this'.
      cbn [array_]. rewrite length_insert.
      rewrite (GetIndex_length (<[it:=Bucket_Erase bucket]> (array_ this)) (array_ this))
        by apply length_insert.
      rewrite (Find_loop_ext NEXT (<[it:=Bucket_Erase bucket]> (array_ this)) (array_ this));
        [done|].
      intros q. destruct (decide (q = it)) as [->|Hq].
      * rewrite list_lookup_total_insert_eq by (by eapply lookup_lt_Some).
        rewrite (list_lookup_total_correct _ _ _ Hl).
        unfold Bucket_HasKey, Bucket_IsOccupied, Bucket_Erase. cbn [is_occupied_ pair_].
        rewrite Ho, Hk. cbn [andb]. by rewrite bool_decide_eq_false_2 by congruence.
      * by rewrite list_lookup_total_insert_ne.
Qed.

(** X18. A failed insert loses nothing: when [Insert] on a table that
    satisfies its invariant reports failure (after any number of swaps), the
    table still satisfies its invariant, stores the same pairs, has the same
    count and length, and [Find] finds a key afterwards exactly when it
    found it before. *)
Theorem failed_insert_keeps_pairs (this : BucketArray) (p : PairType) b' ref :
  table_ok this →
  BucketArray_Insert this p = (b', (false, ref)) →
  table_ok b' ∧ ref = RefFake ∧
  contents (array_ b') ≡ₚ contents (array_ this) ∧
  pairs_count_ b' = pairs_count_ this ∧
  length (array_ b') = length (array_ this) ∧
  ∀ key, BucketArray_Find b' key = BucketArray_End b'
         ↔ BucketArray_Find this key = BucketArray_End this.
Proof.
  intros Hok Hins.
  apply BucketArray_Insert_ok in Hins as (Hok' & Hlen & Hperm & ->); [|done].
  split_and!; [done|done|done| |done|].
  - destruct Hok as (_ & _ & ->). destruct Hok' as (_ & _ & ->). by rewrite Hperm.
  - intros key.
    rewrite (BucketArray_Find_End_iff b' key) by apply Hok'.
    rewrite (BucketArray_Find_End_iff this key) by apply Hok.
    by rewrite Hperm.
Qed.

Lemma Bucket_HasKey_copy bucket key :
  Bucket_HasKey (Bucket_copy bucket) key = Bucket_HasKey bucket key.
Proof. by destruct bucket as [pair []]. Qed.

Lemma lookup_total_fmap_copy arr q :
  Bucket_HasKey ((Bucket_copy <$> arr) !!! q) = Bucket_HasKey (arr !!! q) ∧
  is_occupied_ ((Bucket_copy <$> arr) !!! q) = is_occupied_ (arr !!! q).
Proof.
  rewrite !list_lookup_total_alt, list_lookup_fmap.
  destruct (arr !! q) as [[pair []]|]; done.
Qed.

(** X19. Copying a table: [Bucket::operator=] copies the pair of an
    occupied bucket only, and [BucketArray::operator=] copies the vector with
    it.  The copy is nevertheless indistinguishable from the original: same
    length, same occupancy at every index, same stored pairs in the same
    order, same count and load factor, and [Find] returns the same position
    for every key. *)
Theorem table_copy_indistinguishable (this other : BucketArray) key :
  length (array_ (BucketArray_assign this other)) = length (array_ other) ∧
  (∀ i, Bucket_IsOccupied (array_ (BucketArray_assign this other) !!! i)
        = Bucket_IsOccupied (array_ other !!! i)) ∧
  contents (array_ (BucketArray_assign this other)) = contents (array_ other) ∧
  BucketArray_PairsCount (BucketArray_assign this other) = BucketArray_PairsCount other ∧
  BucketArray_LoadFactor (BucketArray_assign this other) = BucketArray_LoadFactor other ∧
  BucketArray_Find (BucketArray_assign this other) key = BucketArray_Find other key.
Proof.
  unfold BucketArray_assign, BucketArray_PairsCount, BucketArray_LoadFactor,
    BucketArray_Find, BucketArray_GetIndex, BucketArray_End, BucketArray_Begin,
    Bucket_IsOccupied.
  cbn [array_ pairs_count_]. rewrite length_fmap, contents_copy.
  split_and!; [done| |done|done|done|].
  - intros i. apply lookup_total_fmap_copy.
  - rewrite (GetIndex_length (Bucket_copy <$> array_ other) (array_ other))
      by apply length_fmap.
    rewrite (Find_loop_ext NEXT (Bucket_copy <$> array_ other) (array_ other)); [done|].
    intros q. by rewrite (proj1 (lookup_total_fmap_copy (array_ other) q)).
Qed.

End HashMapExtras.

(** ** The further properties at concrete maps *)

Lemma table_ok_map_33 : table_ok (params := params_id) (b_array_ map_33).
Proof. apply wf_table_ok. apply reachable_wf. exact reachable_map_33. Qed.

Lemma NoDup_table_map_33 : NoDup (contents (array_ (b_array_ map_33))).*1.
Proof.
  apply (wf_table_nodup (params := params_id)). apply reachable_wf.
  exact reachable_map_33.
Qed.

Lemma table_ok_map_const_33 : table_ok (params := params_const) (b_array_ map_const_33).
Proof. apply wf_table_ok. apply reachable_wf. exact reachable_map_const_33. Qed.

Lemma erase_removes_key_witness :
  reachable (params := params_id) map_33 ∧
  found (params := params_id) (HashMap_erase (params := params_id) map_33 5) 5 = None ∧
  HashMap_size (HashMap_erase (params := params_id) map_33 5)
  = match found (params := params_id) map_33 5 with
    | Some _ => HashMap_size map_33 - 1
    | None => HashMap_size map_33
    end.
Proof.
  split; [exact reachable_map_33|].
  pose proof (erase_removes_key (params := params_id) map_33 5 reachable_map_33)
    as (Hgone & _ & Hsize & _).
  split; [exact Hgone|exact Hsize].
Defined.

Lemma erase_then_insert_witness :
  reachable (params := params_id) map_33 ∧
  found (params := params_id)
    (HashMap_insert (params := params_id) (HashMap_erase (params := params_id) map_33 5) (5, 9))
    5 = Some 9.
Proof.
  split; [exact reachable_map_33|].
  pose proof (erase_then_insert (params := params_id) map_33 5 9 reachable_map_33)
    as (Hfound & _).
  exact Hfound.
Defined.

Lemma insert_effect_witness :
  reachable (params := params_id) map_33 ∧
  HashMap_size (HashMap_insert (params := params_id) map_33 (100, 1))
  = match found (params := params_id) map_33 (100, 1).1 with
    | Some _ => HashMap_size map_33
    | None => S (HashMap_size map_33)
    end.
Proof.
  split; [exact reachable_map_33|].
  pose proof (insert_effect (params := params_id) map_33 (100, 1) reachable_map_33)
    as (_ & Hsize).
  exact Hsize.
Defined.

Lemma index_vivifies_witness :
  reachable (params := params_id) map_33 ∧
  found (params := params_id) (HashMap_index (params := params_id) map_33 100).1 100
  = Some (match found (params := params_id) map_33 100 with
          | Some value => value
          | None => ValueType_default (HashMapParams := params_id)
          end).
Proof.
  split; [exact reachable_map_33|].
  pose proof (index_vivifies (params := params_id) map_33 100 reachable_map_33)
    as (_ & Hfound & _).
  exact Hfound.
Defined.

Lemma index_assign_effect_witness :
  reachable (params := params_id) map_33 ∧
  found (params := params_id)
    (HashMap_apply (params := params_id) map_33 (OpIndexAssign 5 9)) 5 = Some 9.
Proof.
  split; [exact reachable_map_33|].
  pose proof (index_assign_effect (params := params_id) map_33 5 9 reachable_map_33)
    as (Hfound & _).
  exact Hfound.
Defined.

Lemma traversal_visits_elements_witness :
  reachable (params := params_const) map_const_33 ∧
  length (HashMap_traverse (params := params_const) map_const_33)
  = HashMap_size map_const_33.
Proof.
  split; [exact reachable_map_const_33|].
  pose proof (traversal_visits_elements (params := params_const) map_const_33)
    as (_ & _ & Hreach).
  destruct (Hreach reachable_map_const_33) as (_ & Hlen & _).
  exact Hlen.
Defined.

Lemma reconstruct_preserves_witness :
  reachable (params := params_id) map_dense ∧
  HashMap_size (HashMap_Reconstruct (params := params_id) map_dense true false)
  = HashMap_size map_dense.
Proof.
  split; [exact reachable_map_dense|].
  pose proof (reconstruct_preserves (params := params_id) map_dense true reachable_map_dense)
    as (_ & Hsize & _).
  exact Hsize.
Defined.

Lemma empty_iff_witness :
  reachable (params := params_id) (HashMap_new (params := params_id)) ∧
  (HashMap_empty (HashMap_new (params := params_id)) = true
   ↔ ∀ key, found (params := params_id) (HashMap_new (params := params_id)) key = None).
Proof.
  split; [apply reachable_new|].
  pose proof (empty_iff (params := params_id) (HashMap_new (params := params_id))
                (reachable_new (params := params_id))) as (Hiff & _).
  exact Hiff.
Defined.

Section RoomAtIdentityHash.

#[local] Existing Instance params_id.

(** In [map_33], bucket 40 is free and is the ideal index of key 40. *)
Lemma insert_with_room_witness :
  0 < capacity (b_array_ map_33) ∧
  is_occupied_ (array_ (b_array_ map_33) !!! 40) = false ∧
  ∃ e, BucketArray_GetIndex (params := params_id) (b_array_ map_33) (40, 1).1 ≤ e ≤ 40 ∧
       BucketArray_Insert_log (params := params_id) (b_array_ map_33) (40, 1)
       = ({| array_ := <[e := Bucket_of (40, 1)]> (array_ (b_array_ map_33));
             pairs_count_ := S (pairs_count_ (b_array_ map_33)) |},
          (true, RefArray e), []).
Proof.
  assert (0 < capacity (b_array_ map_33)) as Hcap by (vm_compute; lia).
  assert (is_occupied_ (array_ (b_array_ map_33) !!! 40) = false) as Hfree
    by (vm_compute; reflexivity).
  assert (BucketArray_GetIndex (params := params_id) (b_array_ map_33) (40, 1).1 ≤ 40
          < BucketArray_GetIndex (params := params_id) (b_array_ map_33) (40, 1).1 + NEXT)
    as Hwin by (vm_compute; lia).
  split; [exact Hcap|]. split; [exact Hfree|].
  destruct (insert_with_room (params := params_id) (b_array_ map_33) (40, 1) 40 Hcap Hwin Hfree)
    as (e & He & _ & _ & Hins).
  exists e. split; [exact He|exact Hins].
Defined.

End RoomAtIdentityHash.

Section FullWindowAtConstantHash.

#[local] Existing Instance params_const.

Lemma overflow_only_when_window_full_witness :
  reachable (params := params_const) map_const_33 ∧
  (HashMap_ForceInsert (params := params_const) map_const_33 (100, 7)).2 = RefList 1 ∧
  is_occupied_
    (array_ (b_array_ (after_load_check (params := params_const) map_const_33)) !!! 5)
  = true.
Proof.
  assert ((HashMap_ForceInsert (params := params_const) map_const_33 (100, 7)).2 = RefList 1)
    as Href by (vm_compute; reflexivity).
  split; [exact reachable_map_const_33|]. split; [exact Href|].
  apply (overflow_only_when_window_full (params := params_const) map_const_33 (100, 7) 1 5
           reachable_map_const_33 Href).
  vm_compute. lia.
Defined.

End FullWindowAtConstantHash.

Lemma table_insert_then_find_witness :
  table_ok (params := params_id) (b_array_ map_33) ∧
  BucketArray_Find (params := params_id)
    (BucketArray_Insert (params := params_id) (b_array_ map_33) (64, 7)).1 (64, 7).1 = 2.
Proof.
  split; [exact table_ok_map_33|].
  assert ((64, 7).1 ∉ (contents (array_ (b_array_ map_33))).*1) as Hfresh.
  { apply (BucketArray_Find_absent (params := params_id) (b_array_ map_33) 64).
    - apply table_ok_map_33.
    - vm_compute. reflexivity. }
  assert (BucketArray_Insert (params := params_id) (b_array_ map_33) (64, 7)
          = ((BucketArray_Insert (params := params_id) (b_array_ map_33) (64, 7)).1,
             (true, RefArray 2))) as Hins by (vm_compute; reflexivity).
  pose proof (table_insert_then_find (params := params_id) (b_array_ map_33) (64, 7) _ 2
                table_ok_map_33 NoDup_table_map_33 Hfresh Hins) as (Hfind & _).
  exact Hfind.
Defined.

Lemma capacity_power_of_two_witness :
  reachable (params := params_id) map_dense ∧
  length (array_ (b_array_ map_dense)) `mod` 2 = 1.
Proof.
  split; [exact reachable_map_dense|].
  pose proof (capacity_power_of_two (params := params_id) map_dense reachable_map_dense)
    as (_ & Hodd & _).
  exact Hodd.
Defined.

Section DisplacementAtIdentityHash.

#[local] Existing Instance params_id.

Lemma displacement_terminates_witness :
  0 < capacity (b_array_ map_33) ∧
  Insert_while (params := params_id) 1000
    (BucketArray_GetIndex (params := params_id) (b_array_ map_33) (64, 7).1)
    (array_ (b_array_ map_33))
    (Insert_scan (length (array_ (b_array_ map_33))) (array_ (b_array_ map_33))
       (BucketArray_GetIndex (params := params_id) (b_array_ map_33) (64, 7).1))
    true []
  = Insert_while (params := params_id)
      (S (Insert_scan (length (array_ (b_array_ map_33))) (array_ (b_array_ map_33))
            (BucketArray_GetIndex (params := params_id) (b_array_ map_33) (64, 7).1)))
      (BucketArray_GetIndex (params := params_id) (b_array_ map_33) (64, 7).1)
      (array_ (b_array_ map_33))
      (Insert_scan (length (array_ (b_array_ map_33))) (array_ (b_array_ map_33))
         (BucketArray_GetIndex (params := params_id) (b_array_ map_33) (64, 7).1))
      true [].
Proof.
  assert (0 < capacity (b_array_ map_33)) as Hcap by (vm_compute; lia).
  split; [exact Hcap|].
  apply (displacement_terminates (params := params_id) (b_array_ map_33) (64, 7) 1000 Hcap).
  - vm_compute. lia.
  - vm_compute. lia.
Defined.

End DisplacementAtIdentityHash.

Lemma table_find_complete_witness :
  table_ok (params := params_id) (b_array_ map_33) ∧
  (BucketArray_Find (params := params_id) (b_array_ map_33) 100
   = BucketArray_End (b_array_ map_33)
   ↔ 100 ∉ (contents (array_ (b_array_ map_33))).*1).
Proof.
  split; [exact table_ok_map_33|].
  pose proof (table_find_complete (params := params_id) (b_array_ map_33) 100 table_ok_map_33)
    as (Hiff & _).
  exact Hiff.
Defined.

Lemma table_erase_only_marks_witness :
  table_ok (params := params_id) (b_array_ map_33) ∧
  BucketArray_Find (params := params_id)
    (BucketArray_Erase (params := params_id) (b_array_ map_33) 5).1 5
  = BucketArray_End (BucketArray_Erase (params := params_id) (b_array_ map_33) 5).1.
Proof.
  split; [exact table_ok_map_33|].
  pose proof (table_erase_only_marks (params := params_id) (b_array_ map_33) 5
                table_ok_map_33 NoDup_table_map_33) as (_ & Hfound).
  assert (BucketArray_Find (params := params_id) (b_array_ map_33) 5
          ≠ BucketArray_End (b_array_ map_33)) as Hne by (vm_compute; lia).
  destruct (Hfound Hne) as (_ & _ & _ & Hgone & _).
  exact Hgone.
Defined.

Lemma failed_insert_keeps_pairs_witness :
  table_ok (params := params_const) (b_array_ map_const_33) ∧
  pairs_count_ (BucketArray_Insert (params := params_const) (b_array_ map_const_33) (100, 7)).1
  = pairs_count_ (b_array_ map_const_33).
Proof.
  split; [exact table_ok_map_const_33|].
  assert (BucketArray_Insert (params := params_const) (b_array_ map_const_33) (100, 7)
          = ((BucketArray_Insert (params := params_const) (b_array_ map_const_33) (100, 7)).1,
             (false, RefFake))) as Hins by (vm_compute; reflexivity).
  pose proof (failed_insert_keeps_pairs (params := params_const) (b_array_ map_const_33)
                (100, 7) _ RefFake table_ok_map_const_33 Hins) as (_ & _ & _ & Hcount & _).
  exact Hcount.
Defined.
